(** * hoa-js/etag: ETag middleware for Hoa

  A shallow embedding of [src/digest.ts] (the streaming digest accumulator)
  and of [src/index.ts] (the ETag policy: tag resolution, [If-None-Match]
  matching and the 304 downgrade), followed by the properties the
  specification states about them.

  [src/index.ts] is embedded in the revision the test-suite exercises
  (quoted tags, method-aware wildcard, 2xx guard).

  Conventions.
  - A JavaScript string is a [string]: every header name, header value,
    method and digest handled here is a byte string (the Fetch [Headers]
    class only yields code units below 256), so one [ascii] is one code
    unit.
  - A [Uint8Array] and an [ArrayBuffer] are [list byte].
  - A [ReadableStream<Uint8Array>] is the finite list of chunks its reader
    delivers before reporting [done].
  - The response headers are a [gmap] from lowercased names to values. *)

From Stdlib Require Import ZArith NArith Ascii String Strings.Byte Lia.
From stdpp Require Import base option list strings gmap.

Local Open Scope Z_scope.

(** ** The JavaScript built-ins the sources call *)

Module JS.

(** Exceptions. The only built-in used here that can throw is
    [TypedArray.prototype.set] (a [RangeError] when the source does not fit
    at the offset). *)
Inductive exn : Type := RangeError.

Inductive completion (A : Type) : Type :=
| Normal (a : A)
| Throw (e : exn).
Arguments Normal {A} a.
Arguments Throw {A} e.

#[global] Instance completion_ret : MRet completion := @Normal.
#[global] Instance completion_bind : MBind completion :=
  fun A B f m => match m with Normal a => f a | Throw e => Throw e end.

(** [\s] of a regular expression and the characters [String.prototype.trim]
    removes are the same class, WhiteSpace and LineTerminator; below 256
    these are TAB, LF, VT, FF, CR, SP and NBSP. *)
Definition isWhiteSpace (c : ascii) : bool :=
  let n := N_of_ascii c in
  ((9 <=? n) && (n <=? 13) || (n =? 32) || (n =? 160))%N.

Fixpoint trimStart (s : string) : string :=
  match s with
  | EmptyString => EmptyString
  | String c r => if isWhiteSpace c then trimStart r else s
  end.

Fixpoint trimEnd (s : string) : string :=
  match s with
  | EmptyString => EmptyString
  | String c r =>
      match trimEnd r with
      | EmptyString => if isWhiteSpace c then EmptyString else String c EmptyString
      | r' => String c r'
      end
  end.

(** [s.trim()] *)
Definition trim (s : string) : string := trimEnd (trimStart s).

(** One code unit of [s.toLowerCase()]: A-Z, and in the upper half the
    letters U+00C0..U+00DE except the multiplication sign U+00D7. *)
Definition toLowerCase_unit (c : ascii) : ascii :=
  let n := N_of_ascii c in
  if ((65 <=? n) && (n <=? 90) ||
      (192 <=? n) && (n <=? 222) && negb (n =? 215))%N
  then ascii_of_N (n + 32) else c.

Fixpoint toLowerCase (s : string) : string :=
  match s with
  | EmptyString => EmptyString
  | String c r => String (toLowerCase_unit c) (toLowerCase r)
  end.

(** [a.includes(x)] on an array of strings (SameValueZero is string
    equality on strings). *)
Definition includes (a : list string) (x : string) : bool :=
  existsb (String.eqb x) a.

(** [a.some(p)] *)
Definition some {A : Type} (p : A -> bool) (a : list A) : bool := existsb p a.

(** [a.join(sep)] *)
Fixpoint join (sep : string) (a : list string) : string :=
  match a with
  | [] => EmptyString
  | [x] => x
  | x :: xs => x +:+ sep +:+ join sep xs
  end.

(** A sticky match of a regular expression at the head of a string: the
    rest of the string after the match, or [None]. *)
Definition matcher : Type := string -> option string.

(** [s.split(re)] for a regular expression [re] that never matches the
    empty string (RegExp.prototype[@@split]): scanning from the end of the
    previous separator, the first position where [re] matches stickily ends
    the current piece and the scan resumes after the match; the text after
    the last separator is the last piece, so the result of splitting the
    empty string is the one-element array of the empty string.  [fuel]
    bounds the number of scan steps; each step consumes a code unit. *)
Fixpoint split_scan (re : matcher) (fuel : nat) (s : string) : list string :=
  match fuel, s with
  | _, EmptyString => [EmptyString]
  | O, _ => [s]
  | S fuel', String c r =>
      match re s with
      | Some after => EmptyString :: split_scan re fuel' after
      | None =>
          match split_scan re fuel' r with
          | piece :: pieces => String c piece :: pieces
          | [] => [String c EmptyString]
          end
      end
  end.

Definition split (re : matcher) (s : string) : list string :=
  split_scan re (String.length s) s.

(** [x.toString(16)] for a non-negative integer: lowercase digits, most
    significant first, no leading zero, [0] for zero. *)
Definition hexDigit (d : N) : ascii :=
  match String.get (N.to_nat d) "0123456789abcdef" with
  | Some c => c
  | None => "000"%char
  end.

Fixpoint toString16_digits (fuel : nat) (n : N) (low : string) : string :=
  let low' := String (hexDigit (n mod 16)) low in
  match fuel with
  | O => low'
  | S fuel' =>
      if (n / 16 =? 0)%N then low' else toString16_digits fuel' (n / 16) low'
  end.

Definition toString16 (n : N) : string :=
  toString16_digits (N.to_nat (N.log2 n)) n EmptyString.

(** [s.padStart(maxLength, fillString)]: the fill string is repeated and
    truncated to the missing length. *)
Fixpoint filler (cur fillString : string) (n : nat) : string :=
  match n with
  | O => EmptyString
  | S n' =>
      match cur with
      | String c cur' => String c (filler cur' fillString n')
      | EmptyString =>
          match fillString with
          | String c f' => String c (filler f' fillString n')
          | EmptyString => EmptyString
          end
      end
  end.

Definition padStart (maxLength : nat) (fillString : string) (s : string) : string :=
  if (maxLength <=? String.length s)%nat then s
  else filler fillString fillString (maxLength - String.length s) +:+ s.

(** [new Uint8Array(n)]: [n] zero bytes. *)
Definition Uint8Array_new (n : nat) : list byte := replicate n x00.

(** [target.set(source, offset)]: overwrite [target] from [offset] on;
    [RangeError] when [source] does not fit. *)
Definition Uint8Array_set (target source : list byte) (offset : nat)
  : completion (list byte) :=
  if (offset + length source <=? length target)%nat
  then Normal (take offset target ++ source ++ drop (offset + length source) target)
  else Throw RangeError.

End JS.

(** ** src/digest.ts *)

Module Digest.
Import JS.

(** The digest capability: [(body: Uint8Array) => ArrayBuffer | Promise<ArrayBuffer>].
    Awaiting makes the synchronous and the asynchronous form alike.  A
    capability that throws, like a stream whose read fails, propagates out of
    the middleware and is outside the statements below. *)
Definition generator : Type := list byte -> list byte.

(** [ReadableStream<Uint8Array>], and its reader: the chunks not read yet. *)
Definition stream : Type := list (list byte).

(** A computation of this package: how it completes, and the buffers it
    handed to the digest capability, in call order. *)
Record Eff (A : Type) : Type := mkEff {
  outcome : completion A;
  invoked : list (list byte)
}.
Arguments mkEff {A} outcome invoked.
Arguments outcome {A} e.
Arguments invoked {A} e.

#[global] Instance Eff_ret : MRet Eff := fun A a => mkEff (Normal a) [].
#[global] Instance Eff_bind : MBind Eff := fun A B f m =>
  match outcome m with
  | Normal a => let r := f a in mkEff (outcome r) (invoked m ++ invoked r)
  | Throw e => mkEff (Throw e) (invoked m)
  end.

Definition lift {A : Type} (c : completion A) : Eff A := mkEff c [].

(** [await generator(accumulated)] *)
Definition invoke (g : generator) (buffer : list byte) : Eff (list byte) :=
  mkEff (Normal (g buffer)) [buffer].

Definition mergeBuffers (buffer1 : option (list byte)) (buffer2 : list byte)
  : completion (list byte) :=
  match buffer1 with
  | None => Normal buffer2
  | Some buffer1 =>
      let merged := Uint8Array_new (length buffer1 + length buffer2) in
      merged ← Uint8Array_set merged buffer1 0;
      merged ← Uint8Array_set merged buffer2 (length buffer1);
      Normal merged
  end.

(** The [while (true)] loop of [generateDigest]: [reader.read()] yields the
    next chunk, or [done] at the end of the list.  Returns the accumulated
    buffer and the reader as the loop leaves it. *)
Fixpoint readAll (reader : stream) (accumulated : option (list byte))
  : completion (option (list byte) * stream) :=
  match reader with
  | [] => Normal (accumulated, [])
  | value :: reader' =>
      accumulated' ← mergeBuffers accumulated value;
      readAll reader' (Some accumulated')
  end.

(** [(x) => x.toString(16).padStart(2, '0')] *)
Definition hexByte (x : byte) : string :=
  padStart 2 "0" (toString16 (Byte.to_N x)).

Definition generateDigest (stream : option stream) (generator : generator)
  : Eff (option string) :=
  match stream with
  | None => mret None
  | Some stream =>
      '(accumulated, _) ← lift (readAll stream None);
      match accumulated with
      | None => mret None
      | Some accumulated =>
          result ← invoke generator accumulated;
          mret (Some (join EmptyString (map hexByte result)))
      end
  end.

End Digest.


(** ** The host framework *)

Module Hoa.
Import JS Digest.

(** Modelled from the spec: the Hoa framework (package [hoa], imported by
    [src/index.ts] for its types only) is an external collaborator; section 6
    of the specification gives its contract.  The request view exposes the
    method and a header lookup by case-insensitive name; the response view
    exposes a mutable status, a mutable body, header get, set and delete by
    case-insensitive name, and a readable snapshot of the body that is
    independent of the body sent to the client. *)
Record HoaRequest : Type := mkRequest {
  method : string;
  req_headers : gmap string string
}.

(** Modelled from the spec: the response view of section 6.  The body is
    [None] for a null body, else the chunks a reader of it delivers. *)
Record HoaResponse : Type := mkResponse {
  status : Z;
  body : option stream;
  headers : gmap string string
}.

Record HoaContext : Type := mkContext {
  req : HoaRequest;
  res : HoaResponse
}.

(** Modelled from the spec: header names are case-insensitive; as the Fetch
    [Headers] class does, the store keeps them byte-lowercased (A-Z only). *)
Definition lowerByte (c : ascii) : ascii :=
  let n := N_of_ascii c in
  if ((65 <=? n) && (n <=? 90))%N then ascii_of_N (n + 32) else c.

Fixpoint normalize (name : string) : string :=
  match name with
  | EmptyString => EmptyString
  | String c r => String (lowerByte c) (normalize r)
  end.

(** Modelled from the spec: [ctx.req.get(name)]. *)
Definition req_get (r : HoaRequest) (name : string) : option string :=
  req_headers r !! normalize name.

(** Modelled from the spec: [ctx.res.get(name)]. *)
Definition res_get (r : HoaResponse) (name : string) : option string :=
  headers r !! normalize name.

(** Modelled from the spec: [ctx.res.set(name, value)]. *)
Definition res_set (r : HoaResponse) (name value : string) : HoaResponse :=
  mkResponse (status r) (body r) (<[normalize name := value]> (headers r)).

(** Modelled from the spec: [ctx.res.delete(name)]. *)
Definition res_delete (r : HoaResponse) (name : string) : HoaResponse :=
  mkResponse (status r) (body r) (delete (normalize name) (headers r)).

(** [ctx.res.status = v] and [ctx.res.body = v] *)
Definition set_status (r : HoaResponse) (v : Z) : HoaResponse :=
  mkResponse v (body r) (headers r).

Definition set_body (r : HoaResponse) (v : option stream) : HoaResponse :=
  mkResponse (status r) v (headers r).

(** Modelled from the spec: the names [for (const h in ctx.res.headers)]
    enumerates, the stored names of the headers present when the loop starts. *)
Definition header_names (r : HoaResponse) : list string :=
  (map_to_list (headers r)).*1.

(** Modelled from the spec: [ctx.response.body], the body stream of a
    snapshot of the response: a fresh reader over the chunks of the body, whose
    draining leaves [ctx.res.body] as it is. *)
Definition response_body (ctx : HoaContext) : option stream :=
  body (res ctx).

(** The invariant of the header store: every stored name is lowercased. *)
Definition wf_headers (m : gmap string string) : bool :=
  forallb (fun k => String.eqb (normalize k) k) (map_to_list m).*1.

End Hoa.

(** ** src/index.ts *)

Module ETag.
Import JS Digest Hoa.

Record ETagOptions : Type := mkOptions {
  options_retainedHeaders : option (list string);
  options_weak : option bool;
  options_generateDigest : option generator
}.

Definition RETAINED_304_HEADERS : list string :=
  ["cache-control"; "content-location"; "date"; "etag"; "expires"; "vary"].

(** The double quote U+0022. *)
Definition dquote : ascii := "034"%char.

(** [/^W\//], matched at the head of the tag. *)
Definition re_weak : matcher := fun s =>
  match s with
  | String "W" (String "/" rest) => Some rest
  | _ => None
  end.

(** [/\s*,\s*/] matched stickily: both stars are greedy and a comma is no
    white space, so the match is the longest run of white space, a comma, and
    the longest run of white space again. *)
Definition re_comma : matcher := fun s =>
  match trimStart s with
  | String "," rest => Some (trimStart rest)
  | _ => None
  end.

(** [tag.replace(re, replacement)] for a regular expression anchored at the
    start and without the global flag. *)
Definition replace (re : matcher) (replacement : string) (s : string) : string :=
  match re s with
  | Some rest => replacement +:+ rest
  | None => s
  end.

Definition stripWeak (tag : string) : string :=
  replace re_weak EmptyString tag.

Definition etagMatches (etag : string) (ifNoneMatch : option string) (method : string)
  : bool :=
  match ifNoneMatch with
  | None => false
  | Some ifNoneMatch =>
      if String.eqb ifNoneMatch "*"
      then String.eqb method "GET" || String.eqb method "HEAD"
      else some (fun t => String.eqb (stripWeak t) (stripWeak etag))
                (split re_comma ifNoneMatch)
  end.

(** [crypto] is the global [crypto?.subtle] of the platform, given as its
    SHA-1 digest [(body) => crypto.subtle.digest({ name: 'SHA-1' }, body)] when
    it is there. *)
Definition initializeGenerator (crypto : option generator) (generator : option generator)
  : option Digest.generator :=
  match generator with
  | Some g => Some g
  | None =>
      match crypto with
      | Some sha1 => Some sha1
      | None => None
      end
  end.

(** [const retainedHeaders = Array.isArray(options.retainedHeaders)
    ? options.retainedHeaders.map((h) => h.toLowerCase()) : RETAINED_304_HEADERS] *)
Definition retainedHeaders (options : ETagOptions) : list string :=
  match options_retainedHeaders options with
  | Some l => map toLowerCase l
  | None => RETAINED_304_HEADERS
  end.

(** What a run of the middleware leaves: the context, and whether the branch
    of the 304 downgrade was taken. *)
Record Run : Type := mkRun {
  context : HoaContext;
  downgraded : bool
}.

(** Lines 119-129, the tag to emit: the one the response carries, else a
    fresh one.  [None] stands for the two early returns. *)
Definition resolveETag (weak : bool) (generator : option generator) (ctx : HoaContext)
  : Eff (option string) :=
  match res_get (res ctx) "ETag" with
  | Some (String _ _ as etag) => mret (Some etag)
  | _ =>
      match generator with
      | None => mret None
      | Some generator =>
          hash ← generateDigest (response_body ctx) generator;
          match hash with
          | None => mret None
          | Some hash =>
              let quoted := String dquote (hash +:+ String dquote EmptyString) in
              mret (Some (if weak then "W/" +:+ quoted else quoted))
          end
      end
  end.

(** The loop [for (const h in ctx.res.headers)
    if (!retainedHeaders.includes(h)) ctx.res.delete(h)]. *)
Fixpoint deleteUnretained (retainedHeaders : list string) (names : list string)
  (r : HoaResponse) : HoaResponse :=
  match names with
  | [] => r
  | h :: names' =>
      let r := if negb (includes retainedHeaders h) then res_delete r h else r in
      deleteUnretained retainedHeaders names' r
  end.

(** Lines 131-143, reached with the tag to emit. *)
Definition finalize (retainedHeaders : list string) (method : string)
  (ifNoneMatch : option string) (ctx : HoaContext) (etag : string) : Run :=
  let r := res_set (res ctx) "ETag" etag in
  let status := status r in
  if (200 <=? status) && (status <? 300) && etagMatches etag ifNoneMatch method
  then
    let r := set_body r None in
    let r := set_status r 304 in
    let r := deleteUnretained retainedHeaders (header_names r) r in
    mkRun (mkContext (req ctx) r) true
  else mkRun (mkContext (req ctx) r) false.

(** The closure [etagMiddleware (ctx, next)] over the three constants of
    [etag].  [next] is the downstream chain, a transformer of the context;
    the method and the validator are read before it runs. *)
Definition etagMiddleware (retainedHeaders : list string) (weak : bool)
  (generator : option generator)
  (ctx : HoaContext) (next : HoaContext -> HoaContext) : Eff Run :=
  let method := method (req ctx) in
  let ifNoneMatch := trim <$> req_get (req ctx) "If-None-Match" in
  let ctx := next ctx in
  etag ← resolveETag weak generator ctx;
  match etag with
  | None => mret (mkRun ctx false)
  | Some etag => mret (finalize retainedHeaders method ifNoneMatch ctx etag)
  end.

Definition etag (crypto : option generator) (options : ETagOptions)
  : HoaContext -> (HoaContext -> HoaContext) -> Eff Run :=
  let weak := default false (options_weak options) in
  let generator := initializeGenerator crypto (options_generateDigest options) in
  etagMiddleware (retainedHeaders options) weak generator.

End ETag.

Import JS Digest Hoa ETag.

(** ** The specification's words

    Definitions that follow the wording of the specification, to be compared
    with the embedding of the sources above. *)

Module Spec.

(** Two lowercase hexadecimal characters per byte, in byte order. *)
Fixpoint hexEncode (raw : list byte) : string :=
  match raw with
  | [] => EmptyString
  | x :: raw' =>
      String (hexDigit (Byte.to_N x / 16))
        (String (hexDigit (Byte.to_N x mod 16)) (hexEncode raw'))
  end.

Definition isLowerHex (c : ascii) : bool :=
  let n := N_of_ascii c in
  ((48 <=? n) && (n <=? 57) || (97 <=? n) && (n <=? 102))%N.

Fixpoint allChars (p : ascii -> bool) (s : string) : bool :=
  match s with
  | EmptyString => true
  | String c r => p c && allChars p r
  end.

(** The digest step as worded: the hash function invoked once, on the
    in-order concatenation of the chunks, its output hex-encoded. *)
Definition digestOf (chunks : stream) (hashFunction : generator) : Eff (option string) :=
  mkEff (Normal (Some (hexEncode (hashFunction (concat chunks))))) [concat chunks].

(** The number of bytes a stream carries. *)
Definition totalBytes (chunks : stream) : nat := length (concat chunks).

(** The result for empty content as worded: no digest, no invocation. *)
Definition noDigest : Eff (option string) := mkEff (Normal None) [].

(** Some candidate of the comma-separated validator equals the tag, weak
    prefixes stripped on both sides. *)
Definition someCandidateMatches (etag ifNoneMatch : string) : Prop :=
  exists t, t ∈ split re_comma ifNoneMatch /\ stripWeak t = stripWeak etag.

(** The 304 condition as worded in section 8 of the specification;
    [ifNoneMatch] is the trimmed header value, [None] when absent. *)
Definition shouldReturn304_stated (etag : string) (ifNoneMatch : option string)
  (method : string) (status : Z) : Prop :=
  200 <= status < 300 /\
  exists v, ifNoneMatch = Some v /\
    ((v = "*" /\ (method = "GET" \/ method = "HEAD")) \/ someCandidateMatches etag v).

(** The 304 condition of the code: the wildcard is decided by the method
    alone, the candidates are compared for every other validator. *)
Definition shouldReturn304 (etag : string) (ifNoneMatch : option string)
  (method : string) (status : Z) : Prop :=
  200 <= status < 300 /\
  exists v, ifNoneMatch = Some v /\
    ((v = "*" /\ (method = "GET" \/ method = "HEAD")) \/
     (v <> "*" /\ someCandidateMatches etag v)).

(** A tag between double quotes. *)
Definition quoted (d : string) : string :=
  String dquote (d +:+ String dquote EmptyString).

(** A response carries a tag when its [ETag] header is a non-empty string. *)
Definition carriesETag (r : HoaResponse) : bool :=
  match res_get r "ETag" with
  | Some (String _ _) => true
  | _ => false
  end.

(** The run a computation returns, when it returns. *)
Definition ran {A : Type} (r : Eff A) : option A :=
  match outcome r with
  | Normal a => Some a
  | Throw _ => None
  end.

Fixpoint hasComma (s : string) : bool :=
  match s with
  | EmptyString => false
  | String c r => Ascii.eqb c "," || hasComma r
  end.

End Spec.

Import Spec.

(** ** The set-up of the test-suite

    What [test/index.test.ts] builds around the middleware: a request with a
    method and a validator, a handler that answers 200 with a body of one
    chunk, and the status and tag of the final response.  [plain] configures
    the identity in place of SHA-1, so that the digest of a body is the hex
    encoding of its bytes. *)

Module Scenario.

Definition plain : ETagOptions := mkOptions None None (Some (fun body => body)).

Definition fresh : HoaResponse := mkResponse 404 None ∅.

Definition request (method : string) (validator : option string) : HoaContext :=
  mkContext
    (mkRequest method
       match validator with
       | Some v => {[ "if-none-match" := v ]}
       | None => ∅
       end)
    fresh.

Definition respond (content : string) : HoaContext -> HoaContext := fun c =>
  mkContext (req c)
    (set_body (set_status (res c) 200) (Some [String.list_byte_of_string content])).

Definition final (r : Eff Run) : option (Z * option string) :=
  (fun run => (status (res (context run)), res_get (res (context run)) "ETag")) <$> ran r.

End Scenario.

(** ** Notions for the further properties *)

Module Further.

(** The value of a lowercase hexadecimal digit. *)
Definition unhexDigit (c : ascii) : N :=
  let n := N_of_ascii c in
  if (n <? 58)%N then (n - 48)%N else (n - 87)%N.

(** The bytes a digest string stands for: two digits per byte. *)
Fixpoint hexDecode (digest : string) : option (list byte) :=
  match digest with
  | EmptyString => Some []
  | String hi (String lo rest) =>
      x ← Byte.of_N (16 * unhexDigit hi + unhexDigit lo);
      raw ← hexDecode rest;
      Some (x :: raw)
  | String _ EmptyString => None
  end.

(** A candidate as a client writes it in a list: not empty, no comma inside,
    no white space around. *)
Definition candidate (t : string) : bool :=
  negb (String.eqb t EmptyString) && negb (hasComma t) && String.eqb (trim t) t.

(** A run of white space. *)
Definition allWhite (w : string) : bool := allChars isWhiteSpace w.

(** A separator of a validator list: a comma, white space allowed around. *)
Definition separator (before after : string) : string :=
  before +:+ String "," after.

(** The downstream chain made of a middleware and the chain below it: what
    [await next()] runs for a middleware registered above [inner]. *)
Definition chain (inner : HoaContext -> (HoaContext -> HoaContext) -> Eff Run)
  (next : HoaContext -> HoaContext) : HoaContext -> HoaContext :=
  fun ctx =>
    match ran (inner ctx next) with
    | Some run => context run
    | None => ctx
    end.

End Further.

Import Further.

(** ** src/index.ts, the first copy

    The file holds a first copy of the module (lines 1-78) before the one
    embedded above.  Its [stripWeak] and its generator initialisation are the
    same; its comparison differs: no method, no wildcard, and a split on a
    comma followed by white space only. *)

Module Earlier.

(** [/,\s*/] matched stickily: a comma and the longest run of white space. *)
Definition re_comma : matcher := fun s =>
  match s with
  | String "," rest => Some (trimStart rest)
  | _ => None
  end.

Definition etagMatches (etag : string) (ifNoneMatch : option string) : bool :=
  match ifNoneMatch with
  | None => false
  | Some ifNoneMatch =>
      some (fun t => String.eqb (stripWeak t) (stripWeak etag))
           (split re_comma ifNoneMatch)
  end.

(** No white space stands before a comma, directly or with more white space
    in between. *)
Fixpoint tidy (s : string) : bool :=
  match s with
  | EmptyString => true
  | String c r =>
      negb (isWhiteSpace c &&
            match trimStart r with
            | String "," _ => true
            | _ => false
            end)
      && tidy r
  end.

End Earlier.

(** ** Stream objects

    A [ReadableStream] is an object with a state: the chunks not read yet.
    Reading takes chunks away for every holder of the object, so which object
    [generateDigest] is handed matters.  This module embeds [generateDigest]
    and the middleware once more with that state explicit: the body of the
    response is one stream object, every other stream object lives in a store
    under its identity, and a computation passes the world along. *)

Module Live.

(** A stream object: the body of the response itself, or an object of the
    store. *)
Inductive handle : Type :=
| Body
| Object (l : nat).

(** The context, whose response body holds the chunks of the body stream not
    read yet, and the other stream objects with theirs. *)
Record World : Type := mkWorld {
  w_ctx : HoaContext;
  w_streams : gmap nat stream
}.

Definition unread (h : handle) (w : World) : stream :=
  match h with
  | Body => default [] (body (res (w_ctx w)))
  | Object l => default [] (w_streams w !! l)
  end.

Definition setUnread (h : handle) (chunks : stream) (w : World) : World :=
  match h with
  | Body =>
      mkWorld (mkContext (req (w_ctx w)) (set_body (res (w_ctx w)) (Some chunks)))
        (w_streams w)
  | Object l => mkWorld (w_ctx w) (<[l := chunks]> (w_streams w))
  end.

(** [await reader.read()]: the next chunk, taken out of the stream object, or
    [None] for [done]. *)
Definition read (reader : handle) (w : World) : option (list byte) * World :=
  match unread reader w with
  | [] => (None, w)
  | value :: rest => (Some value, setUnread reader rest w)
  end.

(** The [while (true)] loop of [generateDigest] on a stream object.  [fuel]
    bounds the number of reads; [None] when it runs out. *)
Fixpoint readAll (fuel : nat) (reader : handle) (accumulated : option (list byte))
  (w : World) : option (completion (option (list byte)) * World) :=
  match fuel with
  | O => None
  | S fuel' =>
      match read reader w with
      | (None, w) => Some (Normal accumulated, w)
      | (Some value, w) =>
          match mergeBuffers accumulated value with
          | Normal accumulated => readAll fuel' reader (Some accumulated) w
          | Throw e => Some (Throw e, w)
          end
      end
  end.

(** [generateDigest] of [src/digest.ts] on a stream object; one read more than
    there are chunks finds the end. *)
Definition generateDigest (stream : option handle) (generator : generator) (w : World)
  : option (Eff (option string) * World) :=
  match stream with
  | None => Some (mret None : Eff (option string), w)
  | Some stream =>
      '(accumulated, w) ← readAll (S (length (unread stream w))) stream None w;
      Some
        (match accumulated with
         | Throw e => mkEff (Throw e) []
         | Normal None => mret None
         | Normal (Some accumulated) =>
             result ← invoke generator accumulated;
             mret (Some (join EmptyString (map hexByte result)))
         end : Eff (option string), w)
  end.

(** Modelled from the spec: [ctx.response.body].  Section 6 gives the host
    the ability to produce an independent readable snapshot of the body
    without disturbing the body that will be sent to the client: a new stream
    object over the chunks the body holds, null for a null body. *)
Definition response_body (w : World) : option handle * World :=
  match body (res (w_ctx w)) with
  | None => (None, w)
  | Some chunks =>
      let l := fresh (dom (w_streams w)) in
      (Some (Object l), mkWorld (w_ctx w) (<[l := chunks]> (w_streams w)))
  end.

(** Lines 119-129 over the world. *)
Definition resolveETag (weak : bool) (generator : option generator) (w : World)
  : option (Eff (option string) * World) :=
  match res_get (res (w_ctx w)) "ETag" with
  | Some (String _ _ as etag) => Some (mret (Some etag) : Eff (option string), w)
  | _ =>
      match generator with
      | None => Some (mret None : Eff (option string), w)
      | Some generator =>
          let '(stream, w) := response_body w in
          '(hash, w) ← generateDigest stream generator w;
          Some
            (hash ← hash;
             match hash with
             | None => mret None
             | Some hash =>
                 let quoted := String dquote (hash +:+ String dquote EmptyString) in
                 mret (Some (if weak then "W/" +:+ quoted else quoted))
             end : Eff (option string), w)
      end
  end.

(** The closure [etagMiddleware (ctx, next)] over the world: whether the 304
    branch was taken, and the world it leaves. *)
Definition etagMiddleware (retainedHeaders : list string) (weak : bool)
  (generator : option generator)
  (w : World) (next : HoaContext -> HoaContext) : option (Eff bool * World) :=
  let method := method (req (w_ctx w)) in
  let ifNoneMatch := trim <$> req_get (req (w_ctx w)) "If-None-Match" in
  let w := mkWorld (next (w_ctx w)) (w_streams w) in
  '(etag, w) ← resolveETag weak generator w;
  Some
    match outcome etag with
    | Normal None => (mkEff (Normal false) (invoked etag), w)
    | Normal (Some e) =>
        let run := finalize retainedHeaders method ifNoneMatch (w_ctx w) e in
        (mkEff (Normal (downgraded run)) (invoked etag),
         mkWorld (context run) (w_streams w))
    | Throw e => (mkEff (Throw e) (invoked etag), w)
    end.

Definition etag (crypto : option generator) (options : ETagOptions)
  : World -> (HoaContext -> HoaContext) -> option (Eff bool * World) :=
  let weak := default false (options_weak options) in
  let generator := initializeGenerator crypto (options_generateDigest options) in
  etagMiddleware (retainedHeaders options) weak generator.

End Live.

(** ** Strings and byte arrays *)

Section Strings.

Lemma append_cons (c : ascii) (s t : string) : String c s +:+ t = String c (s +:+ t).
Proof. reflexivity. Qed.

Lemma append_empty_l (t : string) : EmptyString +:+ t = t.
Proof. reflexivity. Qed.

Lemma append_empty_r (s : string) : s +:+ EmptyString = s.
Proof.
  induction s as [|c s IH]; [reflexivity|]. now rewrite append_cons, IH.
Qed.

Lemma length_append (s t : string) :
  String.length (s +:+ t) = (String.length s + String.length t)%nat.
Proof.
  induction s as [|c s IH]; [reflexivity|].
  rewrite append_cons. cbn [String.length]. now rewrite IH.
Qed.

Lemma allChars_append p (s t : string) :
  allChars p (s +:+ t) = allChars p s && allChars p t.
Proof.
  induction s as [|c s IH]; [reflexivity|].
  rewrite append_cons. cbn [allChars]. now rewrite IH, andb_assoc.
Qed.

Lemma join_empty_cons (x : string) (xs : list string) :
  join EmptyString (x :: xs) = x +:+ join EmptyString xs.
Proof.
  destruct xs as [|y ys]; cbn [join]; [now rewrite append_empty_r | reflexivity].
Qed.

(** [x.toString(16).padStart(2, '0')] is the two hex digits of the byte. *)
Lemma hexByte_digits (x : byte) :
  hexByte x =
  String (hexDigit (Byte.to_N x / 16)) (String (hexDigit (Byte.to_N x mod 16)) EmptyString).
Proof. destruct x; reflexivity. Qed.

Lemma hexDigit_lower (x : byte) :
  isLowerHex (hexDigit (Byte.to_N x / 16)) = true /\
  isLowerHex (hexDigit (Byte.to_N x mod 16)) = true.
Proof. destruct x; split; reflexivity. Qed.

Lemma join_hexByte (raw : list byte) :
  join EmptyString (map hexByte raw) = hexEncode raw.
Proof.
  induction raw as [|x raw IH]; [reflexivity|].
  rewrite map_cons, join_empty_cons, IH, hexByte_digits. reflexivity.
Qed.

Lemma hexEncode_length (raw : list byte) :
  String.length (hexEncode raw) = (2 * length raw)%nat.
Proof. induction raw as [|x raw IH]; simpl; [reflexivity | rewrite IH; lia]. Qed.

Lemma hexEncode_lower (raw : list byte) : allChars isLowerHex (hexEncode raw) = true.
Proof.
  induction raw as [|x raw IH]; [reflexivity|].
  destruct (hexDigit_lower x) as [Hh Hl].
  cbn [hexEncode allChars]. now rewrite Hh, Hl, IH.
Qed.

Lemma Uint8Array_set_fits (target source : list byte) (offset : nat) :
  (offset + length source <= length target)%nat ->
  Uint8Array_set target source offset =
  Normal (take offset target ++ source ++ drop (offset + length source) target).
Proof.
  intros H. unfold Uint8Array_set.
  destruct (Nat.leb_spec (offset + length source) (length target)); [reflexivity | lia].
Qed.

(** [mergeBuffers] never throws: the two [set] calls fit by construction,
    and the merged array is the first buffer followed by the second. *)
Lemma mergeBuffers_append (buffer1 buffer2 : list byte) :
  mergeBuffers (Some buffer1) buffer2 = Normal (buffer1 ++ buffer2).
Proof.
  unfold mergeBuffers, Uint8Array_new.
  rewrite Uint8Array_set_fits by (rewrite length_replicate; lia).
  cbn [mbind completion_bind].
  rewrite take_0, app_nil_l, Nat.add_0_l, drop_replicate.
  replace (length buffer1 + length buffer2 - length buffer1)%nat
    with (length buffer2) by lia.
  rewrite Uint8Array_set_fits by (rewrite length_app, length_replicate; lia).
  cbn [mbind completion_bind].
  rewrite take_app_length.
  rewrite drop_ge by (rewrite length_app, length_replicate; lia).
  now rewrite app_nil_r.
Qed.

Lemma readAll_some (reader : stream) (acc : list byte) :
  readAll reader (Some acc) = Normal (Some (acc ++ concat reader), []).
Proof.
  revert acc. induction reader as [|value reader IH]; intros acc.
  - cbn. now rewrite app_nil_r.
  - cbn [readAll]. rewrite mergeBuffers_append. cbn [mbind completion_bind].
    rewrite IH. cbn [concat]. now rewrite app_assoc.
Qed.

Lemma readAll_cons (value : list byte) (reader : stream) :
  readAll (value :: reader) None = Normal (Some (concat (value :: reader)), []).
Proof. cbn [readAll mergeBuffers mbind completion_bind]. apply readAll_some. Qed.

Lemma generateDigest_cons (value : list byte) (chunks : stream) (g : generator) :
  generateDigest (Some (value :: chunks)) g = digestOf (value :: chunks) g.
Proof.
  unfold generateDigest, digestOf. rewrite readAll_cons.
  cbn. now rewrite join_hexByte.
Qed.

End Strings.

(** ** Splitting the validator and stripping the weak prefix *)

Section Matching.

Lemma trimStart_length (s : string) :
  (String.length (trimStart s) <= String.length s)%nat.
Proof.
  induction s as [|c s IH]; cbn [trimStart String.length]; [lia|].
  destruct (isWhiteSpace c); cbn [String.length]; lia.
Qed.

Lemma hasComma_append (s t : string) :
  hasComma (s +:+ t) = hasComma s || hasComma t.
Proof.
  induction s as [|c s IH]; [reflexivity|].
  rewrite append_cons. cbn [hasComma]. now rewrite IH, orb_assoc.
Qed.

Lemma hasComma_trimStart (s : string) :
  hasComma s = false -> hasComma (trimStart s) = false.
Proof.
  induction s as [|c s IH]; cbn [trimStart hasComma]; [easy|].
  intros [Hc Hs]%orb_false_iff.
  destruct (isWhiteSpace c); [auto|]. cbn [hasComma]. now rewrite Hc, Hs.
Qed.

(** A separator consumes at least its comma. *)
Lemma re_comma_shorter (s after : string) :
  re_comma s = Some after -> (String.length after < String.length s)%nat.
Proof.
  unfold re_comma. intros H.
  pose proof (trimStart_length s) as Hs.
  destruct (trimStart s) as [|c r]; [discriminate|].
  destruct (Ascii.eqb_spec c ","); [subst c | destruct c as [[] [] [] [] [] [] [] []]; easy].
  injection H as <-. pose proof (trimStart_length r). cbn [String.length] in Hs. lia.
Qed.

Lemma re_comma_without_comma (s : string) : hasComma s = false -> re_comma s = None.
Proof.
  intros H%hasComma_trimStart. unfold re_comma.
  destruct (trimStart s) as [|c r]; [reflexivity|].
  cbn [hasComma] in H. apply orb_false_iff in H as [Hc _].
  destruct c as [[] [] [] [] [] [] [] []]; try reflexivity; discriminate.
Qed.

Lemma re_comma_at_comma (r : string) : re_comma (String "," r) = Some (trimStart r).
Proof. reflexivity. Qed.

(** A validator without a comma is its own single candidate. *)
Lemma split_without_comma (s : string) :
  hasComma s = false -> split re_comma s = [s].
Proof.
  unfold split. induction s as [|c s IH]; [reflexivity|].
  intros H. cbn [String.length split_scan].
  rewrite (re_comma_without_comma _ H).
  cbn [hasComma] in H. apply orb_false_iff in H as [_ Hs].
  now rewrite (IH Hs).
Qed.

(** No candidate contains a comma. *)
Lemma split_scan_pieces (fuel : nat) (s t : string) :
  (String.length s <= fuel)%nat ->
  t ∈ split_scan re_comma fuel s -> hasComma t = false.
Proof.
  revert s t. induction fuel as [|fuel IH]; intros s t Hlen Hin.
  - destruct s; [|cbn [String.length] in Hlen; lia].
    cbn in Hin. apply list_elem_of_singleton in Hin. now subst.
  - destruct s as [|c r].
    + cbn in Hin. apply list_elem_of_singleton in Hin. now subst.
    + cbn [split_scan] in Hin. destruct (re_comma (String c r)) as [after|] eqn:Hre.
      * apply elem_of_cons in Hin as [->|Hin]; [reflexivity|].
        apply (IH after); [|assumption].
        apply re_comma_shorter in Hre. lia.
      * assert (Hc : Ascii.eqb c "," = false).
        { destruct (Ascii.eqb_spec c ","); [subst; discriminate | reflexivity]. }
        assert (Hr : (String.length r <= fuel)%nat) by (cbn [String.length] in Hlen; lia).
        destruct (split_scan re_comma fuel r) as [|piece pieces] eqn:Hsplit.
        -- apply list_elem_of_singleton in Hin. subst. cbn [hasComma]. now rewrite Hc.
        -- apply elem_of_cons in Hin as [->|Hin].
           ++ cbn [hasComma]. rewrite Hc. apply (IH r); [assumption|].
              rewrite Hsplit. apply list_elem_of_here.
           ++ apply (IH r); [assumption|]. rewrite Hsplit. now apply list_elem_of_further.
Qed.

(** The scan always has the fuel it needs: any bound from the length of the
    string on gives the same pieces. *)
Lemma split_scan_fuel (fuel fuel' : nat) (s : string) :
  (String.length s <= fuel)%nat -> (String.length s <= fuel')%nat ->
  split_scan re_comma fuel s = split_scan re_comma fuel' s.
Proof.
  revert fuel' s. induction fuel as [|fuel IH]; intros fuel' s H H'.
  - destruct s; [now destruct fuel' | cbn [String.length] in H; lia].
  - destruct s as [|c r]; [now destruct fuel'|].
    destruct fuel' as [|fuel']; [cbn [String.length] in H'; lia|].
    cbn [split_scan String.length] in *.
    destruct (re_comma (String c r)) as [after|] eqn:Hre.
    + apply re_comma_shorter in Hre. cbn [String.length] in Hre.
      f_equal. apply IH; lia.
    + rewrite (IH fuel' r) by lia. reflexivity.
Qed.

Lemma split_pieces (s t : string) : t ∈ split re_comma s -> hasComma t = false.
Proof. apply split_scan_pieces. lia. Qed.

Lemma stripWeak_prefixed (rest : string) : stripWeak ("W/" +:+ rest) = rest.
Proof. reflexivity. Qed.

(** What [stripWeak] does: it removes the two code units [W/] when the tag
    starts with them, and nothing else. *)
Lemma stripWeak_cases (tag : string) :
  (exists rest, tag = "W/" +:+ rest /\ stripWeak tag = rest) \/
  ((forall rest, tag <> "W/" +:+ rest) /\ stripWeak tag = tag).
Proof.
  assert (E : forall r, "W/" +:+ r = String "W" (String "/" r)) by reflexivity.
  destruct tag as [|c1 [|c2 rest]].
  1,2: right; split; [intros r Hr; rewrite E in Hr; discriminate|].
  1: reflexivity.
  1: destruct c1 as [[] [] [] [] [] [] [] []]; reflexivity.
  destruct (Ascii.eqb_spec c1 "W") as [->|H1].
  - destruct (Ascii.eqb_spec c2 "/") as [->|H2].
    + left. exists rest. split; reflexivity.
    + right. split.
      * intros r Hr. rewrite E in Hr. injection Hr as -> _. congruence.
      * destruct c2 as [[] [] [] [] [] [] [] []]; try reflexivity. congruence.
  - right. split.
    + intros r Hr. rewrite E in Hr. injection Hr as -> _. congruence.
    + destruct c1 as [[] [] [] [] [] [] [] []]; try reflexivity. congruence.
Qed.

Lemma stripWeak_hasComma (tag : string) :
  hasComma tag = false -> hasComma (stripWeak tag) = false.
Proof.
  destruct (stripWeak_cases tag) as [(rest & -> & ->)|[_ ->]]; [|easy].
  rewrite hasComma_append. now intros [_ ?]%orb_false_iff.
Qed.

Lemma lowerHex_hasComma (s : string) : allChars isLowerHex s = true -> hasComma s = false.
Proof.
  induction s as [|c s IH]; [reflexivity|].
  cbn [allChars hasComma]. intros [Hc Hs]%andb_true_iff.
  rewrite (IH Hs), orb_false_r.
  destruct (Ascii.eqb_spec c ","); [subst; discriminate | reflexivity].
Qed.

Lemma quoted_hasComma (d : string) : hasComma (quoted d) = hasComma d.
Proof.
  unfold quoted. cbn [hasComma]. rewrite hasComma_append. cbn. now rewrite orb_false_r.
Qed.

(** The comparison of [etagMatches], as a proposition. *)
Lemma etagMatches_true (etag : string) (ifNoneMatch : option string) (method : string) :
  etagMatches etag ifNoneMatch method = true <->
  exists v, ifNoneMatch = Some v /\
    ((v = "*" /\ (method = "GET" \/ method = "HEAD")) \/
     (v <> "*" /\ someCandidateMatches etag v)).
Proof.
  unfold etagMatches, someCandidateMatches, some.
  destruct ifNoneMatch as [v|].
  2:{ split; [discriminate | intros (v & [=] & _)]. }
  destruct (String.eqb_spec v "*") as [->|Hne].
  - rewrite orb_true_iff, !String.eqb_eq. split.
    + intros H. exists "*". split; [reflexivity|]. left. now split.
    + intros (v & [= <-] & [[_ H]|[H _]]); [assumption | congruence].
  - rewrite existsb_exists. split.
    + intros (t & Hin & Heq). exists v. split; [reflexivity|]. right. split; [assumption|].
      exists t. split; [now apply list_elem_of_In | now apply String.eqb_eq].
    + intros (v' & [= <-] & [[H _]|[_ (t & Hin & Heq)]]); [congruence|].
      exists t. split; [now apply list_elem_of_In | now apply String.eqb_eq].
Qed.

End Matching.

(** ** The digest accumulator *)

Section DigestAccumulator.

Lemma generateDigest_absent (g : generator) : generateDigest None g = noDigest.
Proof. reflexivity. Qed.

Lemma generateDigest_no_chunk (g : generator) : generateDigest (Some []) g = noDigest.
Proof. reflexivity. Qed.

(** The accumulator always returns: reading a finite list of chunks ends, and
    neither the merge nor the encoding throws. *)
Lemma generateDigest_returns (s : option stream) (g : generator) :
  exists d, outcome (generateDigest s g) = Normal d.
Proof.
  destruct s as [[|value chunks]|]; [| rewrite generateDigest_cons |]; eexists; reflexivity.
Qed.

(** The reader is left drained. *)
Lemma readAll_drains (reader : stream) (acc : option (list byte)) :
  exists buffer, readAll reader acc = Normal (buffer, []).
Proof.
  destruct acc as [acc|]; [rewrite readAll_some; eauto|].
  destruct reader; [cbn; eauto | rewrite readAll_cons; eauto].
Qed.

(** What was handed to the digest capability: nothing, or once the whole
    content of the stream. *)
Lemma generateDigest_invoked (s : option stream) (g : generator) :
  invoked (generateDigest s g) = [] \/
  exists chunks, s = Some chunks /\ invoked (generateDigest s g) = [concat chunks].
Proof.
  destruct s as [[|value chunks]|]; [now left | | now left].
  right. exists (value :: chunks). now rewrite generateDigest_cons.
Qed.

(** C3, as amended: for every stream that delivers at least one chunk and
    every hash function, [generateDigest] invokes the hash function exactly
    once, on the in-order concatenation of the chunks, and returns its output
    encoded as two lowercase hexadecimal characters per byte in byte order;
    the returned string is twice as long as the hash output. *)
Theorem generateDigest_hex_of_concatenation
  (value : list byte) (chunks : stream) (g : generator) :
  let content := concat (value :: chunks) in
  generateDigest (Some (value :: chunks)) g =
    mkEff (Normal (Some (hexEncode (g content)))) [content] /\
  String.length (hexEncode (g content)) = (2 * length (g content))%nat /\
  allChars isLowerHex (hexEncode (g content)) = true.
Proof.
  intros content. split; [apply generateDigest_cons|].
  split; [apply hexEncode_length | apply hexEncode_lower].
Qed.

(** C3, as stated, fails for the stream that ends without a chunk: nothing is
    hashed and no digest is returned. *)
Lemma generateDigest_no_chunk_not_hashed :
  generateDigest (Some []) (fun body => body) = noDigest /\
  generateDigest (Some []) (fun body => body) <> digestOf [] (fun body => body).
Proof. split; [reflexivity | discriminate]. Qed.

(** C4, as amended: for an absent stream and for a stream that delivers no
    chunk, [generateDigest] returns null without invoking the hash function,
    and these are the only inputs for which it does; a stream of one or more
    chunks that are all empty has the hash function invoked once, on the empty
    buffer, and the hex encoding of its output returned. *)
Theorem generateDigest_null_iff_no_chunk (g : generator) :
  generateDigest None g = noDigest /\
  generateDigest (Some []) g = noDigest /\
  (forall s, outcome (generateDigest s g) = Normal None <-> s = None \/ s = Some []) /\
  (forall s, invoked (generateDigest s g) = [] <-> s = None \/ s = Some []) /\
  (forall value chunks, totalBytes (value :: chunks) = 0%nat ->
     generateDigest (Some (value :: chunks)) g =
       mkEff (Normal (Some (hexEncode (g [])))) [[]]).
Proof.
  split; [reflexivity|]. split; [reflexivity|].
  split; [|split].
  - intros [[|value chunks]|]; [| rewrite generateDigest_cons |].
    + split; [now right | reflexivity].
    + split; [discriminate | intros [[=]|[=]]].
    + split; [now left | reflexivity].
  - intros [[|value chunks]|]; [| rewrite generateDigest_cons |].
    + split; [now right | reflexivity].
    + split; [discriminate | intros [[=]|[=]]].
    + split; [now left | reflexivity].
  - intros value chunks H. rewrite generateDigest_cons. unfold digestOf.
    unfold totalBytes in H. apply nil_length_inv in H. now rewrite H.
Qed.

(** C4, as stated, fails for a stream of one zero-length chunk: it carries no
    byte, and the hash function is invoked on the empty buffer and its output
    returned as a digest. *)
Lemma generateDigest_empty_chunk_hashed :
  totalBytes [[]] = 0%nat /\
  generateDigest (Some [[]]) (fun _ => [xda; x39]) =
    mkEff (Normal (Some "da39")) [[]] /\
  generateDigest (Some [[]]) (fun _ => [xda; x39]) <> noDigest.
Proof. split; [reflexivity|]. split; [reflexivity | discriminate]. Qed.

End DigestAccumulator.

(** ** The response headers and the 304 downgrade *)

Section Downgrade.

Lemma includes_true (a : list string) (x : string) : includes a x = true <-> x ∈ a.
Proof.
  unfold includes. rewrite existsb_exists, list_elem_of_In. split.
  - intros (y & Hin & ->%String.eqb_eq). assumption.
  - intros Hin. exists x. split; [assumption | apply String.eqb_refl].
Qed.

Lemma header_names_spec (r : HoaResponse) (k : string) :
  k ∈ header_names r <-> is_Some (headers r !! k).
Proof.
  unfold header_names. rewrite list_elem_of_fmap. split.
  - intros ([k' v] & -> & Hin%elem_of_map_to_list). eauto.
  - intros [v Hv]. exists (k, v). split; [reflexivity | now apply elem_of_map_to_list].
Qed.

Lemma deleteUnretained_frame (retained names : list string) (r : HoaResponse) :
  status (deleteUnretained retained names r) = status r /\
  body (deleteUnretained retained names r) = body r.
Proof.
  revert r. induction names as [|h names IH]; intros r; [easy|].
  cbn [deleteUnretained]. destruct (IH (if negb (includes retained h) then res_delete r h else r)) as [-> ->].
  destruct (negb (includes retained h)); easy.
Qed.

(** The loop, on names the store keeps lowercased: a header goes exactly
    when it is enumerated and not retained. *)
Lemma deleteUnretained_lookup (retained names : list string) (r : HoaResponse) (k : string) :
  Forall (fun h => normalize h = h) names ->
  headers (deleteUnretained retained names r) !! k =
  if bool_decide (k ∈ names) && negb (includes retained k) then None else headers r !! k.
Proof.
  intros Hnames. revert r. induction Hnames as [|h names Hh Hnames IH]; intros r.
  - cbn. reflexivity.
  - cbn [deleteUnretained]. rewrite IH. clear IH.
    destruct (decide (k = h)) as [->|Hne].
    + rewrite (bool_decide_eq_true_2 (h ∈ h :: names)) by apply list_elem_of_here.
      destruct (includes retained h) eqn:Hinc; cbn [negb andb].
      * now rewrite andb_false_r.
      * destruct (bool_decide (h ∈ names)); cbn [andb]; [reflexivity|].
        unfold res_delete. cbn [headers]. rewrite Hh. apply lookup_delete_eq.
    + assert (Heq : bool_decide (k ∈ h :: names) = bool_decide (k ∈ names)).
      { apply bool_decide_ext. rewrite elem_of_cons. tauto. }
      rewrite Heq.
      destruct (bool_decide (k ∈ names) && negb (includes retained k)); [reflexivity|].
      destruct (negb (includes retained h)); [|reflexivity].
      unfold res_delete. cbn [headers]. rewrite Hh. now apply lookup_delete_ne.
Qed.

Lemma wf_headers_spec (m : gmap string string) :
  wf_headers m = true <-> forall k v, m !! k = Some v -> normalize k = k.
Proof.
  unfold wf_headers. rewrite forallb_forall. split.
  - intros H k v Hk. apply String.eqb_eq, H, list_elem_of_In, list_elem_of_fmap.
    exists (k, v). split; [reflexivity | now apply elem_of_map_to_list].
  - intros H k [[k' v] [-> Hin%elem_of_map_to_list]]%list_elem_of_In%list_elem_of_fmap.
    apply String.eqb_eq. eapply H, Hin.
Qed.

Lemma wf_headers_insert (m : gmap string string) (name value : string) :
  normalize (normalize name) = normalize name ->
  wf_headers m = true -> wf_headers (<[normalize name := value]> m) = true.
Proof.
  rewrite !wf_headers_spec. intros Hn Hm k v.
  destruct (decide (k = normalize name)) as [->|Hne].
  - intros _. assumption.
  - rewrite lookup_insert_ne by congruence. apply Hm.
Qed.

Lemma wf_header_names (r : HoaResponse) :
  wf_headers (headers r) = true -> Forall (fun h => normalize h = h) (header_names r).
Proof.
  rewrite wf_headers_spec. intros Hwf.
  apply Forall_forall. intros k [v Hv]%header_names_spec. eapply Hwf, Hv.
Qed.

Lemma finalize_downgraded (retained : list string) (method : string)
  (ifNoneMatch : option string) (ctx : HoaContext) (etag : string) :
  downgraded (finalize retained method ifNoneMatch ctx etag) = true <->
  shouldReturn304 etag ifNoneMatch method (status (res ctx)).
Proof.
  unfold finalize, shouldReturn304. cbn [status res_set].
  rewrite <- etagMatches_true.
  destruct (Z.leb_spec 200 (status (res ctx))); cbn [andb];
    [|split; [discriminate | lia]].
  destruct (Z.ltb_spec (status (res ctx)) 300); cbn [andb];
    [|split; [discriminate | lia]].
  destruct (etagMatches etag ifNoneMatch method); cbn [downgraded].
  - split; [intros _; split; [lia | reflexivity] | reflexivity].
  - split; [discriminate | intros [_ [=]]].
Qed.

(** A response that is not downgraded only gains the [ETag] header. *)
Lemma finalize_passthrough (retained : list string) (method : string)
  (ifNoneMatch : option string) (ctx : HoaContext) (etag : string) :
  downgraded (finalize retained method ifNoneMatch ctx etag) = false ->
  context (finalize retained method ifNoneMatch ctx etag) =
  mkContext (req ctx) (res_set (res ctx) "ETag" etag).
Proof.
  unfold finalize.
  destruct (_ && _ && etagMatches etag ifNoneMatch method); [discriminate | reflexivity].
Qed.

(** A downgraded response: status 304, no body, and of the headers present
    once the tag is set exactly the retained ones. *)
Lemma finalize_304 (retained : list string) (method : string)
  (ifNoneMatch : option string) (ctx : HoaContext) (etag : string) :
  wf_headers (headers (res ctx)) = true ->
  downgraded (finalize retained method ifNoneMatch ctx etag) = true ->
  let after := res (context (finalize retained method ifNoneMatch ctx etag)) in
  status after = 304 /\ body after = None /\
  forall name,
    res_get after name =
    if includes retained (normalize name)
    then res_get (res_set (res ctx) "ETag" etag) name else None.
Proof.
  intros Hwf. unfold finalize.
  destruct (_ && _ && etagMatches etag ifNoneMatch method); [intros _ | discriminate].
  cbn [context res].
  set (r := set_status (set_body (res_set (res ctx) "ETag" etag) None) 304).
  destruct (deleteUnretained_frame retained (header_names r) r) as [Hs Hb].
  split; [now rewrite Hs|]. split; [now rewrite Hb|].
  intros name. unfold res_get at 1.
  assert (Hr : wf_headers (headers r) = true).
  { subst r. cbn [headers set_status set_body res_set].
    apply wf_headers_insert; [reflexivity | assumption]. }
  rewrite deleteUnretained_lookup by now apply wf_header_names.
  change (headers r) with (headers (res_set (res ctx) "ETag" etag)).
  fold (res_get (res_set (res ctx) "ETag" etag) name).
  destruct (includes retained (normalize name)); cbn [negb]; [now rewrite andb_false_r|].
  rewrite andb_true_r. destruct (bool_decide_reflect (normalize name ∈ header_names r)) as [Hin|Hin];
    [reflexivity|].
  unfold res_get. change (headers (res_set (res ctx) "ETag" etag)) with (headers r).
  destruct (headers r !! normalize name) eqn:Hl; [|reflexivity].
  exfalso. apply Hin, header_names_spec. eauto.
Qed.

End Downgrade.

(** ** The middleware *)

Section Middleware.

Lemma resolveETag_carried (weak : bool) (gen : option generator) (ctx : HoaContext)
  (e : string) :
  res_get (res ctx) "ETag" = Some e -> e <> EmptyString ->
  resolveETag weak gen ctx = mkEff (Normal (Some e)) [].
Proof.
  intros He Hne. unfold resolveETag. rewrite He. destruct e; [congruence | reflexivity].
Qed.

(** Without a carried tag, the tag is the quoted digest of the snapshot. *)
Lemma resolveETag_fresh (weak : bool) (g : generator) (ctx : HoaContext) :
  carriesETag (res ctx) = false ->
  resolveETag weak (Some g) ctx =
  mkEff
    (match outcome (generateDigest (response_body ctx) g) with
     | Normal (Some d) => Normal (Some (if weak then "W/" +:+ quoted d else quoted d))
     | Normal None => Normal None
     | Throw e => Throw e
     end)
    (invoked (generateDigest (response_body ctx) g)).
Proof.
  intros Hc. unfold resolveETag, carriesETag in *.
  assert (E : forall A (k : A) (k' : string -> A),
             match res_get (res ctx) "ETag" with
             | Some (String _ _ as etag) => k' etag
             | _ => k
             end = k).
  { intros A k k'. destruct (res_get (res ctx) "ETag") as [[|c s]|]; congruence. }
  rewrite E. unfold mbind, Eff_bind.
  destruct (outcome (generateDigest (response_body ctx) g)) as [[d|]|e];
    cbn; now rewrite ?app_nil_r.
Qed.

Lemma resolveETag_no_generator (weak : bool) (ctx : HoaContext) :
  carriesETag (res ctx) = false ->
  resolveETag weak None ctx = mkEff (Normal None) [].
Proof.
  unfold resolveETag, carriesETag.
  destruct (res_get (res ctx) "ETag") as [[|c s]|]; now try discriminate.
Qed.

(** The resolution always returns, and never the empty tag. *)
Lemma resolveETag_returns (weak : bool) (gen : option generator) (ctx : HoaContext) :
  exists tag, outcome (resolveETag weak gen ctx) = Normal tag /\
              (forall e, tag = Some e -> e <> EmptyString).
Proof.
  destruct (carriesETag (res ctx)) eqn:Hc.
  - unfold carriesETag in Hc.
    destruct (res_get (res ctx) "ETag") as [[|c s]|] eqn:He; try discriminate.
    rewrite (resolveETag_carried _ _ _ _ He) by discriminate.
    eexists. split; [reflexivity|]. now intros e [= <-].
  - destruct gen as [g|].
    + rewrite resolveETag_fresh by assumption. cbn [outcome].
      destruct (generateDigest_returns (response_body ctx) g) as [[d|] ->].
      * eexists. split; [reflexivity|]. intros e [= <-]. now destruct weak.
      * eexists. split; [reflexivity|]. discriminate.
    + rewrite resolveETag_no_generator by assumption.
      eexists. split; [reflexivity | discriminate].
Qed.

Lemma etagMiddleware_run (retained : list string) (weak : bool)
  (gen : option generator) (ctx : HoaContext) (next : HoaContext -> HoaContext)
  (tag : option string) :
  outcome (resolveETag weak gen (next ctx)) = Normal tag ->
  etagMiddleware retained weak gen ctx next =
  mkEff
    (Normal
       match tag with
       | None => mkRun (next ctx) false
       | Some e =>
           finalize retained (method (req ctx))
             (trim <$> req_get (req ctx) "If-None-Match") (next ctx) e
       end)
    (invoked (resolveETag weak gen (next ctx))).
Proof.
  intros H. unfold etagMiddleware, mbind, Eff_bind. rewrite H.
  destruct tag; cbn; now rewrite app_nil_r.
Qed.

Lemma stripWeak_empty (e : string) :
  stripWeak e = EmptyString -> e = EmptyString \/ e = "W/".
Proof.
  destruct (stripWeak_cases e) as [(rest & -> & ->)|[_ ->]]; [|now left].
  intros ->. now right.
Qed.

Lemma someCandidateMatches_empty (e : string) :
  someCandidateMatches e EmptyString <-> stripWeak e = EmptyString.
Proof.
  unfold someCandidateMatches. change (split re_comma EmptyString) with [EmptyString].
  split.
  - intros (t & ->%list_elem_of_singleton & H). now rewrite <- H.
  - intros H. exists EmptyString. split; [apply list_elem_of_here | now rewrite H].
Qed.

(** The [ETag] header after the final step. *)
Lemma finalize_etag_header (retained : list string) (method : string)
  (ifNoneMatch : option string) (ctx : HoaContext) (e : string) :
  wf_headers (headers (res ctx)) = true ->
  let run := finalize retained method ifNoneMatch ctx e in
  res_get (res (context run)) "ETag" =
  if downgraded run && negb (includes retained "etag") then None else Some e.
Proof.
  intros Hwf run.
  assert (Hset : res_get (res_set (res ctx) "ETag" e) "ETag" = Some e).
  { unfold res_get, res_set. cbn [headers]. apply lookup_insert_eq. }
  destruct (downgraded run) eqn:Hd.
  - destruct (finalize_304 retained method ifNoneMatch ctx e Hwf Hd) as (_ & _ & Hh).
    fold run in Hh. rewrite Hh, Hset. change (normalize "ETag") with "etag".
    now destruct (includes retained "etag").
  - subst run. rewrite finalize_passthrough by assumption. exact Hset.
Qed.

(** C1, as amended: once the tag is resolved, the middleware performs the 304
    downgrade if and only if the status is in [200,300), [If-None-Match] is
    present, and either its trimmed value is the wildcard and the method is
    GET or HEAD, or its trimmed value is not the wildcard and some candidate
    of its split on commas with optional surrounding white space equals the
    tag, weak prefixes stripped on both sides.  An absent [If-None-Match]
    never triggers the downgrade, an empty one only for the tag [W/], and a
    status outside [200,300) never does. *)
Theorem downgrade_iff_condition (crypto : option generator) (options : ETagOptions)
  (ctx : HoaContext) (next : HoaContext -> HoaContext) :
  let method := method (req ctx) in
  let ifNoneMatch := trim <$> req_get (req ctx) "If-None-Match" in
  let status := status (res (next ctx)) in
  let weak := default false (options_weak options) in
  let generator := initializeGenerator crypto (options_generateDigest options) in
  exists tag run,
    outcome (resolveETag weak generator (next ctx)) = Normal tag /\
    outcome (etag crypto options ctx next) = Normal run /\
    (downgraded run = true <->
     exists e, tag = Some e /\ shouldReturn304 e ifNoneMatch method status) /\
    (ifNoneMatch = None -> downgraded run = false) /\
    (ifNoneMatch = Some EmptyString -> downgraded run = true -> tag = Some "W/") /\
    (~ 200 <= status < 300 -> downgraded run = false).
Proof.
  intros method ifNoneMatch status weak generator.
  destruct (resolveETag_returns weak generator (next ctx)) as (tag & Htag & Hne).
  exists tag. eexists. split; [exact Htag|].
  unfold etag. rewrite (etagMiddleware_run _ _ _ _ _ _ Htag). cbn [outcome].
  split; [reflexivity|].
  fold method ifNoneMatch.
  assert (Hiff : downgraded
            match tag with
            | Some e => finalize (retainedHeaders options) method ifNoneMatch (next ctx) e
            | None => mkRun (next ctx) false
            end = true <->
          exists e, tag = Some e /\ shouldReturn304 e ifNoneMatch method status).
  { destruct tag as [e|].
    - rewrite finalize_downgraded. split; [eauto | now intros (e' & [= <-] & H)].
    - split; [discriminate | now intros (e' & [=] & _)]. }
  split; [exact Hiff|]. split; [|split].
  - intros Hnone. apply not_true_is_false. rewrite Hiff.
    intros (e & _ & _ & v & Hv & _). congruence.
  - intros Hempty (e & -> & _ & v & Hv & Hcase)%Hiff.
    rewrite Hempty in Hv. injection Hv as <-.
    destruct Hcase as [[[=] _]|[_ Hm%someCandidateMatches_empty]].
    apply stripWeak_empty in Hm as [->| ->]; [now destruct (Hne _ eq_refl) | reflexivity].
  - intros Hst. apply not_true_is_false. rewrite Hiff.
    intros (e & _ & Hrange & _). contradiction.
Qed.

(** C1, as stated, fails in two places.  A POST with the wildcard validator
    against a response whose tag is the asterisk: the stated condition holds
    (the single candidate equals the tag), the middleware does not downgrade.
    A GET with an empty [If-None-Match] against a response whose tag is
    [W/]: the middleware downgrades. *)
Lemma wildcard_post_and_empty_validator :
  let options := mkOptions None None None in
  let post := mkContext (mkRequest "POST" {[ "if-none-match" := "*" ]})
                        (mkResponse 404 None ∅) in
  let star := fun c => mkContext (req c) (mkResponse 200 None {[ "etag" := "*" ]}) in
  let get := mkContext (mkRequest "GET" {[ "if-none-match" := EmptyString ]})
                       (mkResponse 404 None ∅) in
  let bare := fun c => mkContext (req c) (mkResponse 200 None {[ "etag" := "W/" ]}) in
  shouldReturn304_stated "*" (Some "*") "POST" 200 /\
  downgraded <$> ran (etag None options post star) = Some false /\
  downgraded <$> ran (etag None options get bare) = Some true.
Proof.
  split; [|split; reflexivity].
  split; [lia|]. exists "*". split; [reflexivity|]. right.
  exists "*". split; [apply list_elem_of_here | reflexivity].
Qed.

(** C2, as amended: whenever the middleware performs a 304 downgrade, for
    every configuration of retainedHeaders, the status is 304, the body is
    null, every header whose lowercased name is in the retained set keeps the
    value it had once the tag was set, and every other header is absent; the
    [ETag] header is present, with the resolved tag, exactly when [etag] is in
    the retained set, as it is in the default one. *)
Theorem downgrade_keeps_retained_headers (crypto : option generator)
  (options : ETagOptions) (ctx : HoaContext) (next : HoaContext -> HoaContext) :
  wf_headers (headers (res (next ctx))) = true ->
  let weak := default false (options_weak options) in
  let generator := initializeGenerator crypto (options_generateDigest options) in
  exists tag run,
    outcome (resolveETag weak generator (next ctx)) = Normal tag /\
    outcome (etag crypto options ctx next) = Normal run /\
    (downgraded run = true ->
     exists e, tag = Some e /\
       status (res (context run)) = 304 /\
       body (res (context run)) = None /\
       (forall name,
          res_get (res (context run)) name =
          if includes (retainedHeaders options) (normalize name)
          then res_get (res_set (res (next ctx)) "ETag" e) name else None) /\
       res_get (res (context run)) "ETag" =
         if includes (retainedHeaders options) "etag" then Some e else None) /\
    (options_retainedHeaders options = None ->
     includes (retainedHeaders options) "etag" = true).
Proof.
  intros Hwf weak generator.
  destruct (resolveETag_returns weak generator (next ctx)) as (tag & Htag & _).
  exists tag. eexists. split; [exact Htag|].
  unfold etag. rewrite (etagMiddleware_run _ _ _ _ _ _ Htag). cbn [outcome].
  split; [reflexivity|]. split.
  - destruct tag as [e|]; [|discriminate]. intros Hd. exists e. split; [reflexivity|].
    destruct (finalize_304 _ _ _ _ _ Hwf Hd) as (Hs & Hb & Hh).
    split; [exact Hs|]. split; [exact Hb|]. split; [exact Hh|].
    rewrite finalize_etag_header by assumption. rewrite Hd. cbn [andb].
    now destruct (includes (retainedHeaders options) "etag").
  - unfold retainedHeaders. now intros ->.
Qed.

Lemma downgrade_keeps_retained_headers_witness :
  let options := mkOptions None None (Some (fun body => body)) in
  let ctx := mkContext (mkRequest "GET" {[ "if-none-match" := quoted "78" ]})
                       (mkResponse 404 None ∅) in
  let handler := fun c =>
    mkContext (req c)
      (mkResponse 200 (Some [[x78]]) {[ "date" := "d"; "content-type" := "text/plain" ]}) in
  wf_headers (headers (res (handler ctx))) = true /\
  exists run,
    ran (etag None options ctx handler) = Some run /\
    downgraded run = true /\
    status (res (context run)) = 304 /\
    res_get (res (context run)) "Date" = Some "d" /\
    res_get (res (context run)) "Content-Type" = None /\
    res_get (res (context run)) "ETag" = Some (quoted "78").
Proof.
  intros options ctx handler. split; [reflexivity|].
  destruct (downgrade_keeps_retained_headers None options ctx handler eq_refl)
    as (tag & run & _ & Hrun & H304 & _).
  exists run. unfold ran. rewrite Hrun. split; [reflexivity|].
  vm_compute in Hrun. injection Hrun as <-.
  destruct (H304 eq_refl) as (e & _ & Hs & _ & Hh & He).
  split; [reflexivity|]. split; [exact Hs|].
  rewrite (Hh "Date"), (Hh "Content-Type"). repeat split; reflexivity.
Defined.

(** C2, as stated, fails for a retainedHeaders list without [etag]: the
    response is downgraded to 304 and the [ETag] header is deleted with the
    other headers that are not retained. *)
Lemma custom_retained_drops_etag :
  let options := mkOptions (Some ["date"]) None (Some (fun body => body)) in
  let ctx := mkContext (mkRequest "GET" {[ "if-none-match" := quoted "78" ]})
                       (mkResponse 404 None ∅) in
  let handler := fun c =>
    mkContext (req c) (mkResponse 200 (Some [[x78]]) {[ "date" := "d" ]}) in
  downgraded <$> ran (etag None options ctx handler) = Some true /\
  (fun run => res_get (res (context run)) "ETag") <$> ran (etag None options ctx handler)
    = Some None /\
  (fun run => res_get (res (context run)) "Date") <$> ran (etag None options ctx handler)
    = Some (Some "d").
Proof. repeat split; reflexivity. Qed.

Lemma resolveETag_invoked (weak : bool) (gen : option generator) (ctx : HoaContext) :
  invoked (resolveETag weak gen ctx) = [] \/
  exists chunks, response_body ctx = Some chunks /\
                 invoked (resolveETag weak gen ctx) = [concat chunks].
Proof.
  destruct (carriesETag (res ctx)) eqn:Hc.
  - left. unfold carriesETag in Hc.
    destruct (res_get (res ctx) "ETag") as [[|c s]|] eqn:He; try discriminate.
    now rewrite (resolveETag_carried _ _ _ _ He).
  - destruct gen as [g|]; [|left; now rewrite resolveETag_no_generator].
    rewrite resolveETag_fresh by assumption. cbn [invoked].
    apply generateDigest_invoked.
Qed.

(** C6, as amended: for every response on which the downstream handler has
    set a non-empty [ETag] header, the digest generator is not invoked
    whatever generator is configured, the carried value is the one the 304
    condition is evaluated with, and the final response never carries another
    value: its [ETag] header is the carried one, unless the response is
    downgraded under a retainedHeaders list without [etag], which removes it. *)
Theorem carried_etag_not_recomputed (crypto : option generator) (options : ETagOptions)
  (ctx : HoaContext) (next : HoaContext -> HoaContext) (e : string) :
  wf_headers (headers (res (next ctx))) = true ->
  res_get (res (next ctx)) "ETag" = Some e ->
  e <> EmptyString ->
  exists run,
    etag crypto options ctx next = mkEff (Normal run) [] /\
    (downgraded run = true <->
     shouldReturn304 e (trim <$> req_get (req ctx) "If-None-Match")
       (method (req ctx)) (status (res (next ctx)))) /\
    res_get (res (context run)) "ETag" =
      if downgraded run && negb (includes (retainedHeaders options) "etag")
      then None else Some e.
Proof.
  intros Hwf He Hne. unfold etag.
  pose proof (resolveETag_carried (default false (options_weak options))
                (initializeGenerator crypto (options_generateDigest options))
                (next ctx) e He Hne) as Hres.
  rewrite (etagMiddleware_run _ _ _ _ _ (Some e)) by now rewrite Hres.
  rewrite Hres. cbn [invoked].
  eexists. split; [reflexivity|]. split.
  - apply finalize_downgraded.
  - now apply finalize_etag_header.
Qed.

Lemma carried_etag_not_recomputed_witness :
  let options := mkOptions None None (Some (fun body => body)) in
  let ctx := mkContext (mkRequest "GET" ∅) (mkResponse 404 None ∅) in
  let handler := fun c =>
    mkContext (req c) (mkResponse 200 (Some [[x78]]) {[ "etag" := quoted "v1" ]}) in
  wf_headers (headers (res (handler ctx))) = true /\
  res_get (res (handler ctx)) "ETag" = Some (quoted "v1") /\
  quoted "v1" <> EmptyString /\
  exists run,
    etag None options ctx handler = mkEff (Normal run) [] /\
    res_get (res (context run)) "ETag" = Some (quoted "v1").
Proof.
  intros options ctx handler.
  assert (Hne : quoted "v1" <> EmptyString) by discriminate.
  split; [reflexivity|]. split; [reflexivity|]. split; [exact Hne|].
  destruct (carried_etag_not_recomputed None options ctx handler (quoted "v1")
              eq_refl eq_refl Hne) as (run & Hrun & _ & Hetag).
  exists run. split; [exact Hrun|]. rewrite Hetag.
  vm_compute in Hrun. injection Hrun as <-. reflexivity.
Defined.

(** C6, as stated, fails when the response is downgraded under a
    retainedHeaders list without [etag]: the carried header is deleted, so the
    final response has no [ETag] header. *)
Lemma carried_etag_deleted_on_downgrade :
  let options := mkOptions (Some ["date"]) None (Some (fun body => body)) in
  let ctx := mkContext (mkRequest "GET" {[ "if-none-match" := quoted "v1" ]})
                       (mkResponse 404 None ∅) in
  let handler := fun c =>
    mkContext (req c) (mkResponse 200 (Some [[x78]]) {[ "etag" := quoted "v1" ]}) in
  res_get (res (handler ctx)) "ETag" = Some (quoted "v1") /\
  (fun run => res_get (res (context run)) "ETag") <$> ran (etag None options ctx handler)
    = Some None.
Proof. split; reflexivity. Qed.

Lemma generateDigest_lowerHex (s : option stream) (g : generator) (d : string) :
  outcome (generateDigest s g) = Normal (Some d) -> allChars isLowerHex d = true.
Proof.
  destruct s as [[|value chunks]|]; [discriminate | | discriminate].
  rewrite generateDigest_cons. intros [= <-]. apply hexEncode_lower.
Qed.

Lemma stripWeak_quoted (d : string) : stripWeak (quoted d) = quoted d.
Proof. reflexivity. Qed.

Lemma quoted_not_wildcard (d : string) : String.eqb (quoted d) "*" = false.
Proof. reflexivity. Qed.

Lemma weak_matches_strong (d method : string) :
  hasComma d = false ->
  etagMatches ("W/" +:+ quoted d) (Some (quoted d)) method = true.
Proof.
  intros Hd. unfold etagMatches. rewrite quoted_not_wildcard.
  rewrite split_without_comma by now rewrite quoted_hasComma.
  cbn [some existsb]. rewrite stripWeak_prefixed, stripWeak_quoted, String.eqb_refl.
  reflexivity.
Qed.

(** C7: for every freshly computed digest [d], the tag the middleware sets is
    the digest in double quotes, behind the prefix [W/] when the weak option
    is true and bare when it is false or unset; it is the final [ETag] header
    (unless a downgrade under a retainedHeaders list without [etag] removes
    it); and the weak tag matches the strong client validator of the same
    digest, for every method. *)
Theorem fresh_etag_format (crypto : option generator) (options : ETagOptions)
  (ctx : HoaContext) (next : HoaContext -> HoaContext) (g : generator) (d : string) :
  wf_headers (headers (res (next ctx))) = true ->
  carriesETag (res (next ctx)) = false ->
  initializeGenerator crypto (options_generateDigest options) = Some g ->
  outcome (generateDigest (response_body (next ctx)) g) = Normal (Some d) ->
  let weak := default false (options_weak options) in
  let tag := if weak then "W/" +:+ quoted d else quoted d in
  outcome (resolveETag weak (Some g) (next ctx)) = Normal (Some tag) /\
  (exists run,
     outcome (etag crypto options ctx next) = Normal run /\
     res_get (res (context run)) "ETag" =
       if downgraded run && negb (includes (retainedHeaders options) "etag")
       then None else Some tag) /\
  (forall method, etagMatches ("W/" +:+ quoted d) (Some (quoted d)) method = true).
Proof.
  intros Hwf Hc Hg Hd weak tag.
  assert (Hres : outcome (resolveETag weak (Some g) (next ctx)) = Normal (Some tag)).
  { rewrite resolveETag_fresh by assumption. cbn [outcome]. now rewrite Hd. }
  split; [exact Hres|]. split.
  - unfold etag. rewrite Hg. fold weak.
    rewrite (etagMiddleware_run _ _ _ _ _ _ Hres). cbn [outcome].
    eexists. split; [reflexivity|]. now apply finalize_etag_header.
  - intros method. apply weak_matches_strong.
    eapply lowerHex_hasComma, generateDigest_lowerHex, Hd.
Qed.

Lemma fresh_etag_format_witness :
  let options := mkOptions None (Some true) None in
  let sha := fun _ : list byte => [xda; x39] in
  let ctx := mkContext (mkRequest "GET" ∅) (mkResponse 404 None ∅) in
  let handler := fun c => mkContext (req c) (mkResponse 200 (Some [[x78]]) ∅) in
  wf_headers (headers (res (handler ctx))) = true /\
  carriesETag (res (handler ctx)) = false /\
  initializeGenerator (Some sha) (options_generateDigest options) = Some sha /\
  outcome (generateDigest (response_body (handler ctx)) sha) = Normal (Some "da39") /\
  exists run,
    outcome (etag (Some sha) options ctx handler) = Normal run /\
    res_get (res (context run)) "ETag" = Some ("W/" +:+ quoted "da39").
Proof.
  intros options sha ctx handler. repeat (split; [reflexivity|]).
  destruct (fresh_etag_format (Some sha) options ctx handler sha "da39"
              eq_refl eq_refl eq_refl eq_refl) as (_ & (run & Hrun & Hetag) & _).
  exists run. split; [exact Hrun|]. rewrite Hetag.
  vm_compute in Hrun. injection Hrun as <-. reflexivity.
Defined.

(** C8: when the response carries no tag and no digest generator is
    configured, neither a custom one nor the platform's, the middleware
    returns with the response as the downstream handler left it, whatever the
    request's [If-None-Match] is: no [ETag] header is added, and status, body
    and headers are unchanged. *)
Theorem no_generator_leaves_response (options : ETagOptions)
  (ctx : HoaContext) (next : HoaContext -> HoaContext) :
  options_generateDigest options = None ->
  carriesETag (res (next ctx)) = false ->
  etag None options ctx next = mkEff (Normal (mkRun (next ctx) false)) [].
Proof.
  intros Hg Hc. unfold etag. rewrite Hg. cbn [initializeGenerator].
  pose proof (resolveETag_no_generator (default false (options_weak options))
                (next ctx) Hc) as Hres.
  rewrite (etagMiddleware_run _ _ _ _ _ None) by now rewrite Hres.
  now rewrite Hres.
Qed.

Lemma no_generator_leaves_response_witness :
  let options := mkOptions None None None in
  let ctx := mkContext (mkRequest "GET" {[ "if-none-match" := "*" ]})
                       (mkResponse 404 None ∅) in
  let handler := fun c =>
    mkContext (req c) (mkResponse 200 (Some [[x78]]) {[ "date" := "d" ]}) in
  options_generateDigest options = None /\
  carriesETag (res (handler ctx)) = false /\
  etag None options ctx handler = mkEff (Normal (mkRun (handler ctx) false)) [].
Proof.
  intros options ctx handler. split; [reflexivity|]. split; [reflexivity|].
  exact (no_generator_leaves_response options ctx handler eq_refl eq_refl).
Defined.

(** No candidate of a validator that starts with the lowercase prefix equals
    a tag whose stripped value is the quoted digest. *)
Lemma lowercase_prefix_no_match (e d method : string) :
  stripWeak e = quoted d ->
  etagMatches e (Some ("w/" +:+ quoted d)) method = false.
Proof.
  intros He. apply not_true_iff_false.
  assert (E : "w/" +:+ quoted d = String "w" (String "/" (quoted d))) by reflexivity.
  intros (v & [= <-] & [[Hstar _]|[_ (t & Hin & Heq)]])%etagMatches_true.
  - rewrite E in Hstar. discriminate Hstar.
  - rewrite He in Heq.
    assert (Hd : hasComma (quoted d) = false).
    { rewrite <- Heq. apply stripWeak_hasComma. eapply split_pieces, Hin. }
    rewrite split_without_comma in Hin
      by (rewrite E; cbn [hasComma]; now rewrite Hd).
    apply list_elem_of_singleton in Hin. subst t.
    rewrite E in Heq. change (stripWeak (String "w" (String "/" (quoted d))))
      with (String "w" (String "/" (quoted d))) in Heq.
    apply (f_equal String.length) in Heq. cbn [String.length] in Heq. lia.
Qed.

(** C9: [stripWeak] removes exactly one leading uppercase [W/]: a doubled
    prefix loses one, a lowercase [w/] is kept, and every tag is either
    [W/] followed by its stripped value or its own stripped value; so the
    client validator made of the lowercase prefix and the quoted digest never
    matches the server tag made of the same quoted digest, strong or weak. *)
Theorem stripWeak_once_case_sensitive :
  (forall t, stripWeak ("W/W/" +:+ t) = "W/" +:+ t) /\
  (forall t, stripWeak ("w/" +:+ t) = "w/" +:+ t) /\
  (forall tag,
     (exists rest, tag = "W/" +:+ rest /\ stripWeak tag = rest) \/
     ((forall rest, tag <> "W/" +:+ rest) /\ stripWeak tag = tag)) /\
  (forall d method,
     etagMatches (quoted d) (Some ("w/" +:+ quoted d)) method = false /\
     etagMatches ("W/" +:+ quoted d) (Some ("w/" +:+ quoted d)) method = false).
Proof.
  split; [reflexivity|]. split; [reflexivity|]. split; [apply stripWeak_cases|].
  intros d method. split; apply lowercase_prefix_no_match; reflexivity.
Qed.

(** C10: for every trimmed [If-None-Match] value other than the single
    asterisk, the method plays no part: the value matches exactly when one of
    its comma-separated candidates equals the tag, weak prefixes stripped.  An
    asterisk among the candidates is compared as a literal tag: the list of
    an asterisk and the quoted tag abc matches exactly the responses whose
    stripped tag is the asterisk or the quoted abc. *)
Theorem wildcard_only_as_whole_value (etag v method : string) :
  v <> "*" ->
  (etagMatches etag (Some v) method = true <-> someCandidateMatches etag v) /\
  (forall method', etagMatches etag (Some v) method' = etagMatches etag (Some v) method) /\
  (etagMatches etag (Some ("*, " +:+ quoted "abc")) method = true <->
   stripWeak etag = "*" \/ stripWeak etag = quoted "abc").
Proof.
  intros Hv.
  assert (Hm : forall m, etagMatches etag (Some v) m = true <-> someCandidateMatches etag v).
  { intros m. rewrite etagMatches_true. split.
    - intros (v' & [= <-] & [[H _]|[_ H]]); [congruence | assumption].
    - intros H. exists v. split; [reflexivity|]. right. now split. }
  split; [apply Hm|]. split.
  - intros method'. apply eq_true_iff_eq. now rewrite !Hm.
  - rewrite etagMatches_true. unfold someCandidateMatches.
    change (split re_comma ("*, " +:+ quoted "abc")) with ["*"; quoted "abc"].
    split.
    + intros (v' & [= <-] & [[[=] _]|[_ (t & Hin & Heq)]]).
      apply elem_of_cons in Hin as [->|Hin]; [left; now rewrite <- Heq|].
      apply list_elem_of_singleton in Hin. subst t. right. now rewrite <- Heq.
    + intros H. eexists. split; [reflexivity|]. right. split; [discriminate|].
      destruct H as [H|H].
      * exists "*". split; [apply list_elem_of_here | now rewrite H].
      * exists (quoted "abc"). split; [apply list_elem_of_further, list_elem_of_here|].
        now rewrite H.
Qed.

Lemma wildcard_only_as_whole_value_witness :
  "*, x" <> "*" /\
  (etagMatches "W/*" (Some "*, x") "POST" = true <-> someCandidateMatches "W/*" "*, x") /\
  etagMatches "W/*" (Some "*, x") "POST" = true.
Proof.
  assert (Hv : "*, x" <> "*") by discriminate.
  split; [exact Hv|].
  split; [exact (proj1 (wildcard_only_as_whole_value "W/*" "*, x" "POST" Hv)) | reflexivity].
Defined.

End Middleware.

(** ** Scenarios of the test-suite

    The runs below replay cases of [test/index.test.ts] on the embedding. *)

Section Scenarios.
Import Scenario.

(** Should generate and return ETag header for response body *)
Example scenario_generates_etag :
  final (etag None plain (request "GET" None) (respond "Hi")) =
  Some (200, Some (quoted "4869")).
Proof. reflexivity. Qed.

(** Should handle chunked streams *)
Example scenario_chunked_stream :
  generateDigest (Some (map String.list_byte_of_string ["Hello"; " "; "World"]))
    (fun body => body)
  = generateDigest (Some [String.list_byte_of_string "Hello World"]) (fun body => body).
Proof. reflexivity. Qed.

(** Should not generate ETag for empty body *)
Example scenario_null_body :
  final (etag None plain (request "GET" None)
           (fun c => mkContext (req c) (set_status (res c) 200))) =
  Some (200, None).
Proof. reflexivity. Qed.

(** Should add W/ prefix for weak ETags *)
Example scenario_weak_prefix :
  final (etag None (mkOptions None (Some true) (Some (fun body => body)))
           (request "GET" None) (respond "Hi")) =
  Some (200, Some ("W/" +:+ quoted "4869")).
Proof. reflexivity. Qed.

(** Should handle multiple ETags in If-None-Match *)
Example scenario_multiple_validators :
  final (etag None plain
           (request "GET"
              (Some (quoted "other-etag" +:+ ", " +:+ quoted "4869" +:+ ", "
                     +:+ quoted "another-etag")))
           (respond "Hi")) =
  Some (304, Some (quoted "4869")).
Proof. reflexivity. Qed.

(** Should match strong ETags with weak ETags in If-None-Match *)
Example scenario_weak_validator :
  final (etag None plain (request "GET" (Some ("W/" +:+ quoted "4869"))) (respond "Hi")) =
  Some (304, Some (quoted "4869")).
Proof. reflexivity. Qed.

(** Should handle If-None-Match: * for different HTTP methods *)
Example scenario_wildcard_methods :
  final (etag None plain (request "GET" (Some "*")) (respond "Hi")) =
    Some (304, Some (quoted "4869")) /\
  final (etag None plain (request "POST" (Some "*")) (respond "Hi")) =
    Some (200, Some (quoted "4869")).
Proof. split; reflexivity. Qed.

(** Should handle empty If-None-Match header *)
Example scenario_empty_validator :
  final (etag None plain (request "GET" (Some EmptyString)) (respond "Hi")) =
  Some (200, Some (quoted "4869")).
Proof. reflexivity. Qed.

(** Should return empty Etag when default crypto api is not available *)
Example scenario_no_crypto :
  final (etag None (mkOptions None None None) (request "GET" None) (respond "Hi")) =
  Some (200, None).
Proof. reflexivity. Qed.

(** Should not return 304 for non-2xx status codes *)
Example scenario_not_found :
  final (etag None plain (request "GET" (Some (quoted "4869")))
           (fun c => mkContext (req c)
                       (set_body (set_status (res c) 404)
                          (Some [String.list_byte_of_string "Hi"])))) =
  Some (404, Some (quoted "4869")).
Proof. reflexivity. Qed.

(** Should respect custom retainedHeaders option *)
Example scenario_custom_retained :
  let handler := fun c =>
    mkContext (req c)
      (set_body
         (res_set (res_set (res_set (set_status (res c) 200)
            "Cache-Control" "max-age=3600") "X-Custom-Header" "keep-me")
            "Content-Type" "text/plain")
         (Some [String.list_byte_of_string "Hi"])) in
  (fun run => (status (res (context run)),
               map (res_get (res (context run)))
                 ["ETag"; "X-Custom-Header"; "Cache-Control"; "Content-Type"]))
  <$> ran (etag None
             (mkOptions (Some ["etag"; "x-custom-header"]) None (Some (fun body => body)))
             (request "GET" (Some (quoted "4869"))) handler)
  = Some (304, [Some (quoted "4869"); Some "keep-me"; None; None]).
Proof. reflexivity. Qed.

End Scenarios.

(** * Further properties of the sources *)

(** ** src/digest.ts *)

Section DigestFurther.

(** X1: [mergeBuffers] never throws and returns the bytes of the first
    buffer, when there is one, followed by the bytes of the second; merging
    chunk after chunk therefore accumulates their concatenation. *)
Theorem mergeBuffers_concatenates (buffer1 : option (list byte)) (buffer2 buffer3 : list byte) :
  mergeBuffers buffer1 buffer2 = Normal (default [] buffer1 ++ buffer2) /\
  (merged ← mergeBuffers buffer1 buffer2; mergeBuffers (Some merged) buffer3) =
    Normal (default [] buffer1 ++ buffer2 ++ buffer3).
Proof.
  assert (H : mergeBuffers buffer1 buffer2 = Normal (default [] buffer1 ++ buffer2)).
  { destruct buffer1 as [buffer1|]; [apply mergeBuffers_append | reflexivity]. }
  split; [exact H|]. rewrite H. cbn [mbind completion_bind].
  rewrite mergeBuffers_append. now rewrite app_assoc.
Qed.

(** X2: the digest does not depend on how the body is cut into chunks: two
    streams that deliver at least one chunk each and the same bytes in order
    give the same digest, from one invocation of the hash function on the same
    buffer. *)
Theorem generateDigest_chunking (s1 s2 : stream) (g : generator) :
  s1 <> [] -> s2 <> [] -> concat s1 = concat s2 ->
  generateDigest (Some s1) g = generateDigest (Some s2) g.
Proof.
  intros H1 H2 Heq.
  destruct s1 as [|v1 s1]; [congruence|]. destruct s2 as [|v2 s2]; [congruence|].
  rewrite !generateDigest_cons. unfold digestOf. now rewrite Heq.
Qed.

Lemma generateDigest_chunking_witness :
  let s1 := [[x48; x65]; [x6c]; []] in
  let s2 := [[x48]; [x65; x6c]] in
  s1 <> [] /\ s2 <> [] /\ concat s1 = concat s2 /\
  generateDigest (Some s1) (fun body => body) = generateDigest (Some s2) (fun body => body).
Proof.
  intros s1 s2.
  assert (H1 : s1 <> []) by discriminate.
  assert (H2 : s2 <> []) by discriminate.
  split; [exact H1|]. split; [exact H2|]. split; [reflexivity|].
  exact (generateDigest_chunking s1 s2 (fun body => body) H1 H2 eq_refl).
Defined.

Lemma unhexDigit_hexByte (x : byte) :
  Byte.of_N (16 * unhexDigit (hexDigit (Byte.to_N x / 16))
             + unhexDigit (hexDigit (Byte.to_N x mod 16))) = Some x.
Proof. destruct x; reflexivity. Qed.

(** The hash output is recovered from the digest string. *)
Lemma hexDecode_hexEncode (raw : list byte) : hexDecode (hexEncode raw) = Some raw.
Proof.
  induction raw as [|x raw IH]; [reflexivity|].
  cbn [hexEncode hexDecode]. rewrite unhexDigit_hexByte. cbn [mbind option_bind].
  rewrite IH. reflexivity.
Qed.

Lemma hexEncode_inj (raw1 raw2 : list byte) :
  hexEncode raw1 = hexEncode raw2 -> raw1 = raw2.
Proof.
  intros H. pose proof (hexDecode_hexEncode raw1) as H1.
  rewrite H, hexDecode_hexEncode in H1. now injection H1.
Qed.

(** X3: the hex encoding loses nothing: the digests of two streams that
    deliver at least one chunk each are equal exactly when the two raw hash
    outputs are equal, and the raw output is recovered from the digest two
    digits at a time. *)
Theorem digest_equal_iff_hash_equal (s1 s2 : stream) (g1 g2 : generator) :
  s1 <> [] -> s2 <> [] ->
  (outcome (generateDigest (Some s1) g1) = outcome (generateDigest (Some s2) g2) <->
   g1 (concat s1) = g2 (concat s2)) /\
  (exists d, outcome (generateDigest (Some s1) g1) = Normal (Some d) /\
             hexDecode d = Some (g1 (concat s1))).
Proof.
  intros H1 H2.
  destruct s1 as [|v1 s1]; [congruence|]. destruct s2 as [|v2 s2]; [congruence|].
  rewrite !generateDigest_cons. unfold digestOf. cbn [outcome]. split.
  - split.
    + intros [= H]. now apply hexEncode_inj.
    + now intros ->.
  - eexists. split; [reflexivity|]. apply hexDecode_hexEncode.
Qed.

Lemma digest_equal_iff_hash_equal_witness :
  let s1 := [[x48; x65]] in
  let s2 := [[x48]; [x65]] in
  let g := fun body : list byte => rev body in
  s1 <> [] /\ s2 <> [] /\
  outcome (generateDigest (Some s1) g) = outcome (generateDigest (Some s2) g).
Proof.
  intros s1 s2 g.
  assert (H1 : s1 <> []) by discriminate.
  assert (H2 : s2 <> []) by discriminate.
  split; [exact H1|]. split; [exact H2|].
  exact (proj2 (proj1 (digest_equal_iff_hash_equal s1 s2 g g H1 H2)) eq_refl).
Defined.

End DigestFurther.

(** ** src/index.ts: the validator list *)

Section ValidatorList.

Lemma trimEnd_length (s : string) : (String.length (trimEnd s) <= String.length s)%nat.
Proof.
  induction s as [|c s IH]; [reflexivity|]. cbn [trimEnd].
  destruct (trimEnd s) as [|c' s'].
  - destruct (isWhiteSpace c); cbn [String.length]; lia.
  - cbn [String.length] in *. lia.
Qed.

Lemma trimStart_fixed (s : string) :
  String.length (trimStart s) = String.length s -> trimStart s = s.
Proof.
  destruct s as [|c s]; [reflexivity|]. cbn [trimStart].
  destruct (isWhiteSpace c); [|reflexivity].
  pose proof (trimStart_length s). cbn [String.length]. lia.
Qed.

Lemma trim_fixed (t : string) : trim t = t -> trimStart t = t /\ trimEnd t = t.
Proof.
  unfold trim. intros H.
  assert (Hs : trimStart t = t).
  { apply trimStart_fixed. pose proof (trimStart_length t).
    pose proof (trimEnd_length (trimStart t)). rewrite H in *. lia. }
  split; [exact Hs|]. now rewrite Hs in H.
Qed.

Lemma trimStart_white (w s : string) :
  allWhite w = true -> trimStart (w +:+ s) = trimStart s.
Proof.
  unfold allWhite. induction w as [|c w IH]; [reflexivity|].
  cbn [allChars]. intros [Hc Hw]%andb_true_iff.
  rewrite append_cons. cbn [trimStart]. rewrite Hc. auto.
Qed.

Lemma trimStart_append (t s : string) :
  t <> EmptyString -> trimStart t = t -> trimStart (t +:+ s) = t +:+ s.
Proof.
  destruct t as [|c t]; [congruence|]. intros _. rewrite append_cons. cbn [trimStart].
  destruct (isWhiteSpace c); [|reflexivity].
  intros H. pose proof (trimStart_length t) as Hl. rewrite H in Hl.
  cbn [String.length] in Hl. lia.
Qed.

Lemma trimEnd_white (w : string) : allWhite w = true -> trimEnd w = EmptyString.
Proof.
  unfold allWhite. induction w as [|c w IH]; [reflexivity|].
  cbn [allChars trimEnd]. intros [Hc Hw]%andb_true_iff. now rewrite (IH Hw), Hc.
Qed.

Lemma trimEnd_append_white (s w : string) :
  allWhite w = true -> trimEnd (s +:+ w) = trimEnd s.
Proof.
  intros Hw. induction s as [|c s IH]; [now apply trimEnd_white|].
  rewrite append_cons. cbn [trimEnd]. now rewrite IH.
Qed.

(** After a trimmed, comma-free text the separator cannot start early. *)
Lemma re_comma_inside (r rest : string) :
  r <> EmptyString -> trimEnd r = r -> hasComma r = false ->
  re_comma (r +:+ rest) = None.
Proof.
  induction r as [|b r IH]; [congruence|]. intros _ Hend Hcomma.
  cbn [hasComma] in Hcomma. apply orb_false_iff in Hcomma as [Hb Hr].
  rewrite append_cons. unfold re_comma. cbn [trimStart].
  destruct (isWhiteSpace b) eqn:Hws.
  - cbn [trimEnd] in Hend. rewrite Hws in Hend.
    destruct (trimEnd r) as [|c' r'] eqn:Hr'; [discriminate|].
    injection Hend as Hend.
    assert (Hne : r <> EmptyString) by (rewrite <- Hend; discriminate).
    apply (IH Hne) in Hr; [|congruence]. exact Hr.
  - destruct b as [[] [] [] [] [] [] [] []]; try reflexivity; discriminate.
Qed.

Lemma split_scan_cons (fuel : nat) (s : string) :
  exists piece pieces, split_scan re_comma fuel s = piece :: pieces.
Proof.
  destruct fuel as [|fuel], s as [|c s]; cbn [split_scan]; eauto.
  destruct (re_comma (String c s)); eauto.
  destruct (split_scan re_comma fuel s); eauto.
Qed.

Lemma split_prefix (c rest : string) :
  trimEnd c = c -> hasComma c = false ->
  exists piece pieces,
    split re_comma rest = piece :: pieces /\
    split re_comma (c +:+ rest) = (c +:+ piece) :: pieces.
Proof.
  induction c as [|a c IH]; intros Hend Hcomma.
  - rewrite append_empty_l. destruct (split_scan_cons (String.length rest) rest)
      as (piece & pieces & H). exists piece, pieces. now rewrite append_empty_l.
  - pose proof (re_comma_inside (String a c) rest) as Hre.
    assert (Hc : c = EmptyString \/ trimEnd c = c).
    { cbn [trimEnd] in Hend. destruct (trimEnd c) as [|c' r'] eqn:Hc'.
      - left. destruct (isWhiteSpace a); [discriminate | now injection Hend].
      - right. now injection Hend. }
    assert (Hcomma' : hasComma c = false).
    { cbn [hasComma] in Hcomma. now apply orb_false_iff in Hcomma as [_ ?]. }
    assert (IH' : exists piece pieces,
               split re_comma rest = piece :: pieces /\
               split re_comma (c +:+ rest) = (c +:+ piece) :: pieces).
    { destruct Hc as [-> | Hc]; [|now apply IH].
      destruct (split_scan_cons (String.length rest) rest) as (piece & pieces & H).
      exists piece, pieces. now rewrite !append_empty_l. }
    destruct IH' as (piece & pieces & Hrest & Hsplit).
    exists piece, pieces. split; [exact Hrest|].
    rewrite append_cons in *. unfold split in *. cbn [String.length split_scan].
    rewrite Hre by (assumption || discriminate). now rewrite Hsplit.
Qed.

Lemma append_assoc (a b c : string) : (a +:+ b) +:+ c = a +:+ (b +:+ c).
Proof. induction a as [|x a IH]; [reflexivity|]. now rewrite !append_cons, IH. Qed.

Lemma split_separator (before after rest : string) :
  allWhite before = true -> allWhite after = true -> trimStart rest = rest ->
  split re_comma (separator before after +:+ rest) = EmptyString :: split re_comma rest.
Proof.
  intros Hb Ha Hrest. unfold separator.
  assert (Hre : re_comma ((before +:+ String "," after) +:+ rest) = Some rest).
  { unfold re_comma. rewrite append_assoc, (trimStart_white _ _ Hb), append_cons.
    change (trimStart (String "," (after +:+ rest))) with (String "," (after +:+ rest)).
    cbv beta iota. now rewrite (trimStart_white _ _ Ha), Hrest. }
  pose proof (re_comma_shorter _ _ Hre) as Hlen.
  unfold split.
  destruct ((before +:+ String "," after) +:+ rest) as [|c s] eqn:Hs;
    [cbn [String.length] in Hlen; lia|].
  cbn [String.length split_scan]. rewrite Hre. f_equal.
  apply split_scan_fuel; cbn [String.length] in Hlen; lia.
Qed.

Lemma candidate_spec (t : string) :
  candidate t = true <->
  t <> EmptyString /\ hasComma t = false /\ trimStart t = t /\ trimEnd t = t.
Proof.
  unfold candidate. rewrite !andb_true_iff, !negb_true_iff, String.eqb_eq, String.eqb_neq.
  split.
  - intros [[Hne Hc] Ht]. destruct (trim_fixed _ Ht). auto.
  - intros (Hne & Hc & Hs & He). repeat split; try assumption.
    unfold trim. now rewrite Hs.
Qed.

Lemma join_cons_cons (sep x y : string) (l : list string) :
  join sep (x :: y :: l) = x +:+ sep +:+ join sep (y :: l).
Proof. reflexivity. Qed.

(** Splitting undoes joining. *)
Lemma split_join (before after : string) (l : list string) :
  allWhite before = true -> allWhite after = true ->
  l <> [] -> Forall (fun t => candidate t = true) l ->
  split re_comma (join (separator before after) l) = l.
Proof.
  intros Hb Ha Hne Hall. induction Hall as [|c l Hc Hall IH]; [congruence|].
  apply candidate_spec in Hc as (Hcne & Hcomma & Hstart & Hend).
  destruct l as [|c2 l].
  - cbn [join]. now apply split_without_comma.
  - rewrite join_cons_cons.
    assert (Hrest : trimStart (join (separator before after) (c2 :: l))
                    = join (separator before after) (c2 :: l)).
    { inversion Hall as [|? ? Hc2 _]; subst.
      apply candidate_spec in Hc2 as (Hne2 & _ & Hs2 & _).
      destruct l as [|c3 l]; [exact Hs2|].
      rewrite join_cons_cons. now apply trimStart_append. }
    destruct (split_prefix c (separator before after +:+ join (separator before after) (c2 :: l))
                Hend Hcomma) as (piece & pieces & Hsep & ->).
    rewrite split_separator, IH in Hsep by (assumption || discriminate).
    injection Hsep as <- <-. now rewrite append_empty_r.
Qed.

(** X4: a validator written as a list of candidates (each non-empty, without
    a comma and without white space around) joined by a comma with optional
    white space on either side is split back into exactly these candidates;
    unless the whole value is the single asterisk, it matches a tag exactly
    when one of the listed candidates equals the tag, weak prefixes stripped. *)
Theorem etagMatches_list (etag method before after : string) (l : list string) :
  allWhite before = true -> allWhite after = true ->
  l <> [] -> Forall (fun t => candidate t = true) l ->
  split re_comma (join (separator before after) l) = l /\
  (join (separator before after) l <> "*" ->
   (etagMatches etag (Some (join (separator before after) l)) method = true <->
    exists t, t ∈ l /\ stripWeak t = stripWeak etag)).
Proof.
  intros Hb Ha Hne Hall.
  pose proof (split_join before after l Hb Ha Hne Hall) as Hsplit.
  split; [exact Hsplit|]. intros Hstar.
  rewrite etagMatches_true. unfold someCandidateMatches. split.
  - intros (v & [= <-] & [[H _]|[_ H]]); [congruence|]. now rewrite Hsplit in H.
  - intros H. eexists. split; [reflexivity|]. right. split; [assumption|].
    now rewrite Hsplit.
Qed.

Lemma etagMatches_list_witness :
  let l := [quoted "a1"; "W/" +:+ quoted "b2"; "*"] in
  allWhite " " = true /\ allWhite "  " = true /\ l <> [] /\
  Forall (fun t => candidate t = true) l /\
  split re_comma (join (separator " " "  ") l) = l.
Proof.
  intros l.
  assert (Hne : l <> []) by discriminate.
  assert (Hall : Forall (fun t => candidate t = true) l).
  { repeat constructor. }
  split; [reflexivity|]. split; [reflexivity|]. split; [exact Hne|]. split; [exact Hall|].
  exact (proj1 (etagMatches_list (quoted "b2") "GET" " " "  " l eq_refl eq_refl Hne Hall)).
Defined.

End ValidatorList.

(** ** src/index.ts: the middleware as a whole *)

Section MiddlewareFurther.

Lemma trimEnd_ends (s : string) (c : ascii) :
  isWhiteSpace c = false ->
  trimEnd (s +:+ String c EmptyString) = s +:+ String c EmptyString.
Proof.
  intros Hc. induction s as [|a s IH].
  - rewrite append_empty_l. cbn [trimEnd]. now rewrite Hc.
  - rewrite append_cons. cbn [trimEnd]. rewrite IH.
    destruct s; [rewrite append_empty_l | rewrite append_cons]; reflexivity.
Qed.

Lemma trim_padded (before v after : string) :
  allWhite before = true -> allWhite after = true ->
  v <> EmptyString -> trimStart v = v -> trimEnd v = v ->
  trim (before +:+ v +:+ after) = v.
Proof.
  intros Hb Ha Hne Hs He. unfold trim.
  now rewrite (trimStart_white _ _ Hb), trimStart_append, trimEnd_append_white.
Qed.

(** Either form of the tag of a digest is trimmed, and matches either form. *)
Lemma tag_forms (d v : string) :
  v = quoted d \/ v = "W/" +:+ quoted d ->
  v <> EmptyString /\ trimStart v = v /\ trimEnd v = v /\
  String.eqb v "*" = false /\ stripWeak v = quoted d /\ hasComma v = hasComma d.
Proof.
  assert (Hq : trimEnd (quoted d) = quoted d).
  { unfold quoted. rewrite <- append_cons. now apply trimEnd_ends. }
  assert (Hw : trimEnd ("W/" +:+ quoted d) = "W/" +:+ quoted d).
  { unfold quoted.
    change ("W/" +:+ String dquote (d +:+ String dquote EmptyString))
      with (String "W" (String "/" (String dquote d)) +:+ String dquote EmptyString).
    now apply trimEnd_ends. }
  intros [-> | ->].
  - repeat split; try reflexivity; [discriminate | exact Hq | apply quoted_hasComma].
  - repeat split; try reflexivity; [discriminate | exact Hw |].
    rewrite hasComma_append. apply quoted_hasComma.
Qed.

Lemma tag_forms_match (d tag v method : string) :
  hasComma d = false ->
  tag = quoted d \/ tag = "W/" +:+ quoted d ->
  v = quoted d \/ v = "W/" +:+ quoted d ->
  etagMatches tag (Some v) method = true.
Proof.
  intros Hd Ht Hv.
  destruct (tag_forms d tag Ht) as (_ & _ & _ & _ & Hst & _).
  destruct (tag_forms d v Hv) as (_ & _ & _ & Hstar & Hsv & Hcv).
  unfold etagMatches. rewrite Hstar, split_without_comma by now rewrite Hcv.
  cbn [some existsb]. now rewrite Hst, Hsv, String.eqb_refl.
Qed.

Lemma finalize_304_frame (retained : list string) (method : string)
  (ifNoneMatch : option string) (ctx : HoaContext) (e : string) :
  downgraded (finalize retained method ifNoneMatch ctx e) = true ->
  status (res (context (finalize retained method ifNoneMatch ctx e))) = 304 /\
  body (res (context (finalize retained method ifNoneMatch ctx e))) = None.
Proof.
  unfold finalize.
  destruct (_ && _ && etagMatches e ifNoneMatch method); [intros _ | discriminate].
  cbn [context res].
  set (r := set_status (set_body (res_set (res ctx) "ETag" e) None) 304).
  destruct (deleteUnretained_frame retained (header_names r) r) as [-> ->]. easy.
Qed.

(** X5: revalidation succeeds.  When the middleware computes the tag of a
    response with a status in [200,300), a request whose [If-None-Match] is
    that tag, in its strong or in its weak form and with white space around
    it or not, is answered 304 with a null body, whatever the method and
    whether the middleware emits weak or strong tags. *)
Theorem revalidation_round_trip (crypto : option generator) (options : ETagOptions)
  (ctx : HoaContext) (next : HoaContext -> HoaContext) (g : generator)
  (d before v after : string) :
  carriesETag (res (next ctx)) = false ->
  initializeGenerator crypto (options_generateDigest options) = Some g ->
  outcome (generateDigest (response_body (next ctx)) g) = Normal (Some d) ->
  200 <= status (res (next ctx)) < 300 ->
  allWhite before = true -> allWhite after = true ->
  v = quoted d \/ v = "W/" +:+ quoted d ->
  req_get (req ctx) "If-None-Match" = Some (before +:+ v +:+ after) ->
  exists run,
    outcome (etag crypto options ctx next) = Normal run /\
    downgraded run = true /\
    status (res (context run)) = 304 /\
    body (res (context run)) = None.
Proof.
  intros Hc Hg Hd Hst Hb Ha Hv Hreq.
  set (weak := default false (options_weak options)).
  set (tag := if weak then "W/" +:+ quoted d else quoted d).
  assert (Hres : outcome (resolveETag weak (Some g) (next ctx)) = Normal (Some tag)).
  { rewrite resolveETag_fresh by assumption. cbn [outcome]. now rewrite Hd. }
  unfold etag. rewrite Hg. fold weak.
  rewrite (etagMiddleware_run _ _ _ _ _ _ Hres). cbn [outcome].
  eexists. split; [reflexivity|].
  assert (Hdown : downgraded
            (finalize (retainedHeaders options) (method (req ctx))
               (trim <$> req_get (req ctx) "If-None-Match") (next ctx) tag) = true).
  { apply finalize_downgraded. split; [exact Hst|].
    destruct (tag_forms d v Hv) as (Hne & Hs & He & _).
    assert (Hcomma : hasComma d = false)
      by (eapply lowerHex_hasComma, generateDigest_lowerHex, Hd).
    assert (Hm : etagMatches tag (Some v) (method (req ctx)) = true).
    { apply (tag_forms_match d); [assumption | subst tag; destruct weak; auto | assumption]. }
    apply etagMatches_true in Hm as (v' & [= <-] & Hm).
    exists v. split; [|exact Hm].
    rewrite Hreq. cbn [fmap option_fmap option_map]. f_equal. now apply trim_padded. }
  split; [exact Hdown|]. now apply finalize_304_frame.
Qed.

Lemma revalidation_round_trip_witness :
  let options := mkOptions None (Some true) None in
  let sha := fun _ : list byte => [xda; x39] in
  let ctx := mkContext
               (mkRequest "POST" {[ "if-none-match" := " " +:+ quoted "da39" +:+ "  " ]})
               (mkResponse 404 None ∅) in
  let handler := fun c => mkContext (req c) (mkResponse 201 (Some [[x78]]) ∅) in
  carriesETag (res (handler ctx)) = false /\
  initializeGenerator (Some sha) (options_generateDigest options) = Some sha /\
  outcome (generateDigest (response_body (handler ctx)) sha) = Normal (Some "da39") /\
  200 <= status (res (handler ctx)) < 300 /\
  exists run,
    outcome (etag (Some sha) options ctx handler) = Normal run /\
    downgraded run = true /\
    status (res (context run)) = 304 /\
    body (res (context run)) = None.
Proof.
  intros options sha ctx handler.
  assert (Hst : 200 <= status (res (handler ctx)) < 300) by (cbn; lia).
  split; [reflexivity|]. split; [reflexivity|]. split; [reflexivity|]. split; [exact Hst|].
  exact (revalidation_round_trip (Some sha) options ctx handler sha "da39" " "
           (quoted "da39") "  " eq_refl eq_refl eq_refl Hst eq_refl eq_refl
           (or_introl eq_refl) eq_refl).
Defined.

(** X6: what the middleware leaves alone.  It never changes the request; and
    a response it does not downgrade comes back as the downstream handler left
    it, but for the [ETag] header set to the resolved tag when there is one:
    same status, same body, and every other header with its value. *)
Theorem passthrough_frame (crypto : option generator) (options : ETagOptions)
  (ctx : HoaContext) (next : HoaContext -> HoaContext) :
  let weak := default false (options_weak options) in
  let generator := initializeGenerator crypto (options_generateDigest options) in
  exists tag run,
    outcome (resolveETag weak generator (next ctx)) = Normal tag /\
    outcome (etag crypto options ctx next) = Normal run /\
    req (context run) = req (next ctx) /\
    (downgraded run = false ->
     res (context run) =
       match tag with
       | Some e => res_set (res (next ctx)) "ETag" e
       | None => res (next ctx)
       end /\
     status (res (context run)) = status (res (next ctx)) /\
     body (res (context run)) = body (res (next ctx)) /\
     forall name, normalize name <> "etag" ->
       res_get (res (context run)) name = res_get (res (next ctx)) name).
Proof.
  intros weak generator.
  destruct (resolveETag_returns weak generator (next ctx)) as (tag & Htag & _).
  exists tag. eexists. split; [exact Htag|].
  unfold etag. rewrite (etagMiddleware_run _ _ _ _ _ _ Htag). cbn [outcome].
  split; [reflexivity|]. destruct tag as [e|].
  - split; [unfold finalize; now destruct (_ && _ && etagMatches _ _ _)|].
    intros Hd. rewrite finalize_passthrough by assumption. cbn [res].
    repeat split. intros name Hname. unfold res_get, res_set. cbn [headers].
    apply lookup_insert_ne. intros H. apply Hname. now rewrite <- H.
  - split; [reflexivity|]. intros _. repeat split.
Qed.

Lemma resolveETag_none_silent (weak : bool) (gen : option generator) (ctx : HoaContext) :
  outcome (resolveETag weak gen ctx) = Normal None ->
  invoked (resolveETag weak gen ctx) = [].
Proof.
  destruct (carriesETag (res ctx)) eqn:Hc.
  - unfold carriesETag in Hc.
    destruct (res_get (res ctx) "ETag") as [[|c s]|] eqn:He; try discriminate.
    now rewrite (resolveETag_carried _ _ _ _ He).
  - destruct gen as [g|]; [|now rewrite resolveETag_no_generator].
    rewrite resolveETag_fresh by assumption. cbn [outcome invoked].
    destruct (response_body ctx) as [[|value chunks]|]; [reflexivity | | reflexivity].
    rewrite generateDigest_cons. discriminate.
Qed.

Lemma res_set_same (r : HoaResponse) (e : string) :
  res_get r "ETag" = Some e -> res_set r "ETag" e = r.
Proof.
  unfold res_get, res_set. intros H. destruct r as [s b h]. cbn [status body headers] in *.
  f_equal. now apply insert_id.
Qed.

Lemma res_set_twice (r : HoaResponse) (e : string) :
  res_set (res_set r "ETag" e) "ETag" e = res_set r "ETag" e.
Proof.
  apply res_set_same. unfold res_get, res_set. cbn [headers]. apply lookup_insert_eq.
Qed.

(** A response with status 304 and a null body is returned as it is, and the
    digest capability is not invoked for it. *)
Lemma not_modified_left_alone (retained : list string) (weak : bool)
  (gen : option generator) (method : string) (ifNoneMatch : option string)
  (ctx : HoaContext) :
  status (res ctx) = 304 -> body (res ctx) = None ->
  exists tag,
    resolveETag weak gen ctx = mkEff (Normal tag) [] /\
    match tag with
    | Some e => finalize retained method ifNoneMatch ctx e
    | None => mkRun ctx false
    end = mkRun ctx false.
Proof.
  intros Hs Hb.
  destruct (carriesETag (res ctx)) eqn:Hc.
  - unfold carriesETag in Hc.
    destruct (res_get (res ctx) "ETag") as [[|c s]|] eqn:He; try discriminate.
    exists (Some (String c s)).
    split; [now apply resolveETag_carried|].
    unfold finalize. cbn [status res_set]. rewrite Hs. cbn [Z.leb Z.ltb Z.compare andb].
    change ((200 <=? 304) && (304 <? 300)) with false. cbn [andb].
    rewrite res_set_same by assumption. now destruct ctx.
  - exists None. split; [|reflexivity].
    destruct gen as [g|]; [|now apply resolveETag_no_generator].
    rewrite resolveETag_fresh by assumption.
    unfold response_body. now rewrite Hb.
Qed.

(** X7: registering the middleware twice is harmless.  Run above itself, with
    the same configuration, the outer instance leaves the response exactly as
    the inner one produced it, takes no 304 branch of its own and never
    invokes the digest capability. *)
Theorem second_application_changes_nothing (crypto : option generator)
  (options : ETagOptions) (ctx : HoaContext) (next : HoaContext -> HoaContext) :
  exists run,
    outcome (etag crypto options ctx next) = Normal run /\
    etag crypto options ctx (chain (etag crypto options) next) =
      mkEff (Normal (mkRun (context run) false)) [].
Proof.
  set (weak := default false (options_weak options)).
  set (generator := initializeGenerator crypto (options_generateDigest options)).
  destruct (resolveETag_returns weak generator (next ctx)) as (tag & Htag & Hne).
  pose proof (etagMiddleware_run (retainedHeaders options) weak generator ctx next tag Htag)
    as Hinner.
  set (method := method (req ctx)) in *.
  set (ifNoneMatch := trim <$> req_get (req ctx) "If-None-Match") in *.
  set (inner := match tag with
                | Some e => finalize (retainedHeaders options) method ifNoneMatch (next ctx) e
                | None => mkRun (next ctx) false
                end) in *.
  assert (Hrun : etag crypto options ctx next =
                 mkEff (Normal inner) (invoked (resolveETag weak generator (next ctx))))
    by exact Hinner.
  assert (Hchain : chain (etag crypto options) next ctx = context inner).
  { unfold chain, ran. now rewrite Hrun. }
  exists inner. split; [now rewrite Hrun|].
  assert (Houter : exists tag',
             resolveETag weak generator (context inner) = mkEff (Normal tag') [] /\
             match tag' with
             | Some e => finalize (retainedHeaders options) method ifNoneMatch (context inner) e
             | None => mkRun (context inner) false
             end = mkRun (context inner) false).
  { destruct tag as [e|].
    - destruct (downgraded inner) eqn:Hd.
      + destruct (finalize_304_frame _ _ _ _ _ Hd) as [Hs Hb].
        now apply not_modified_left_alone.
      + subst inner. rewrite (finalize_passthrough _ _ _ _ _ Hd).
        exists (Some e). split.
        * apply resolveETag_carried; [|now apply Hne].
          unfold res_get, res_set. cbn [res headers]. apply lookup_insert_eq.
        * pose proof Hd as Hd'. unfold finalize in Hd' |- *. cbn [res status res_set] in *.
          destruct (_ && _ && etagMatches e ifNoneMatch method);
            [discriminate|]. now rewrite res_set_twice.
    - exists None. subst inner. cbn [context]. split; [|reflexivity].
      destruct (resolveETag weak generator (next ctx)) as [o i] eqn:Hr.
      cbn [outcome] in Htag. subst o. f_equal.
      change i with (invoked (mkEff (Normal (@None string)) i)). rewrite <- Hr.
      apply resolveETag_none_silent. now rewrite Hr. }
  destruct Houter as (tag' & Hres & Hfin).
  pose proof (etagMiddleware_run (retainedHeaders options) weak generator ctx
                (chain (etag crypto options) next) tag') as Hout.
  rewrite Hchain, Hres in Hout. specialize (Hout eq_refl).
  fold method ifNoneMatch in Hout. rewrite Hfin in Hout. exact Hout.
Qed.

(** X8: a response without content gets no tag.  When the response carries
    no [ETag] and its body is null or a stream that ends without a chunk, the
    middleware returns it unchanged and the digest capability is not invoked,
    whatever generator is configured and whatever the request asks: not even a
    wildcard [If-None-Match] on a GET turns it into a 304. *)
Theorem empty_body_left_alone (crypto : option generator) (options : ETagOptions)
  (ctx : HoaContext) (next : HoaContext -> HoaContext) :
  carriesETag (res (next ctx)) = false ->
  body (res (next ctx)) = None \/ body (res (next ctx)) = Some [] ->
  etag crypto options ctx next = mkEff (Normal (mkRun (next ctx) false)) [].
Proof.
  intros Hc Hb. unfold etag.
  set (weak := default false (options_weak options)).
  set (generator := initializeGenerator crypto (options_generateDigest options)).
  assert (Hres : resolveETag weak generator (next ctx) = mkEff (Normal None) []).
  { destruct generator as [g|]; [|now apply resolveETag_no_generator].
    rewrite resolveETag_fresh by assumption. unfold response_body.
    now destruct Hb as [-> | ->]. }
  rewrite (etagMiddleware_run _ _ _ _ _ None) by now rewrite Hres.
  now rewrite Hres.
Qed.

Lemma empty_body_left_alone_witness :
  let options := mkOptions None None (Some (fun body => body)) in
  let ctx := mkContext (mkRequest "GET" {[ "if-none-match" := "*" ]})
                       (mkResponse 404 None ∅) in
  let handler := fun c => mkContext (req c) (mkResponse 200 (Some []) {[ "date" := "d" ]}) in
  carriesETag (res (handler ctx)) = false /\
  (body (res (handler ctx)) = None \/ body (res (handler ctx)) = Some []) /\
  etag None options ctx handler = mkEff (Normal (mkRun (handler ctx) false)) [].
Proof.
  intros options ctx handler. split; [reflexivity|]. split; [right; reflexivity|].
  exact (empty_body_left_alone None options ctx handler eq_refl (or_intror eq_refl)).
Defined.

Lemma deleteUnretained_only_deletes (retained names : list string) (r : HoaResponse)
  (k v : string) :
  headers (deleteUnretained retained names r) !! k = Some v -> headers r !! k = Some v.
Proof.
  revert r. induction names as [|h names IH]; intros r; [easy|].
  cbn [deleteUnretained]. intros H%IH.
  destruct (negb (includes retained h)); [|exact H].
  unfold res_delete in H. cbn [headers] in H.
  now apply lookup_delete_Some in H as [_ H].
Qed.

(** X9: the header store stays well formed and gains nothing but the tag.
    When the downstream handler leaves a store of lowercased names, so does
    the middleware; and every header of the final response other than [etag]
    was in the handler's response with the same value: the middleware adds or
    rewrites no other header. *)
Theorem header_store_kept (crypto : option generator) (options : ETagOptions)
  (ctx : HoaContext) (next : HoaContext -> HoaContext) :
  wf_headers (headers (res (next ctx))) = true ->
  exists run,
    outcome (etag crypto options ctx next) = Normal run /\
    wf_headers (headers (res (context run))) = true /\
    forall k v, headers (res (context run)) !! k = Some v ->
                k = "etag" \/ headers (res (next ctx)) !! k = Some v.
Proof.
  intros Hwf.
  set (weak := default false (options_weak options)).
  set (generator := initializeGenerator crypto (options_generateDigest options)).
  destruct (resolveETag_returns weak generator (next ctx)) as (tag & Htag & _).
  unfold etag. fold weak generator.
  rewrite (etagMiddleware_run _ _ _ _ _ _ Htag). cbn [outcome].
  eexists. split; [reflexivity|].
  destruct tag as [e|]; [|split; [exact Hwf | auto]].
  assert (Hset : wf_headers (headers (res_set (res (next ctx)) "ETag" e)) = true).
  { unfold res_set. cbn [headers]. now apply wf_headers_insert. }
  assert (Hfrom : forall k v,
             headers (res_set (res (next ctx)) "ETag" e) !! k = Some v ->
             k = "etag" \/ headers (res (next ctx)) !! k = Some v).
  { intros k v. unfold res_set. cbn [headers].
    destruct (decide (k = "etag")) as [->|Hk]; [now left|].
    rewrite lookup_insert_ne by (intros H; apply Hk; now rewrite <- H). now right. }
  unfold finalize.
  destruct (_ && _ && etagMatches e _ _); cbn [context res]; [|now split].
  set (r := set_status (set_body (res_set (res (next ctx)) "ETag" e) None) 304).
  assert (Hsub : forall k v,
             headers (deleteUnretained (retainedHeaders options) (header_names r) r) !! k
               = Some v ->
             headers (res_set (res (next ctx)) "ETag" e) !! k = Some v).
  { intros k v H. now apply deleteUnretained_only_deletes in H. }
  split.
  - apply wf_headers_spec. intros k v H%Hsub.
    eapply (proj1 (wf_headers_spec _) Hset), H.
  - intros k v H%Hsub. now apply Hfrom.
Qed.

Lemma header_store_kept_witness :
  let options := mkOptions (Some ["Date"]) None (Some (fun body => body)) in
  let ctx := mkContext (mkRequest "GET" {[ "if-none-match" := quoted "78" ]})
                       (mkResponse 404 None ∅) in
  let handler := fun c =>
    mkContext (req c)
      (mkResponse 200 (Some [[x78]]) {[ "date" := "d"; "content-type" := "text/plain" ]}) in
  wf_headers (headers (res (handler ctx))) = true /\
  exists run,
    outcome (etag None options ctx handler) = Normal run /\
    wf_headers (headers (res (context run))) = true.
Proof.
  intros options ctx handler. split; [reflexivity|].
  destruct (header_store_kept None options ctx handler eq_refl) as (run & Hrun & Hwf & _).
  exists run. split; [exact Hrun | exact Hwf].
Defined.

Lemma toLowerCase_unit_idempotent (c : ascii) :
  toLowerCase_unit (toLowerCase_unit c) = toLowerCase_unit c.
Proof. destruct c as [[] [] [] [] [] [] [] []]; reflexivity. Qed.

Lemma toLowerCase_idempotent (s : string) : toLowerCase (toLowerCase s) = toLowerCase s.
Proof.
  induction s as [|c s IH]; [reflexivity|].
  cbn [toLowerCase]. now rewrite toLowerCase_unit_idempotent, IH.
Qed.

Lemma toLowerCase_unit_ascii (c : ascii) :
  (N_of_ascii c <? 128)%N = true -> toLowerCase_unit c = lowerByte c.
Proof. destruct c as [[] [] [] [] [] [] [] []]; try reflexivity; discriminate. Qed.

Lemma toLowerCase_ascii (s : string) :
  allChars (fun c => (N_of_ascii c <? 128)%N) s = true -> toLowerCase s = normalize s.
Proof.
  induction s as [|c s IH]; [reflexivity|].
  cbn [allChars toLowerCase normalize]. intros [Hc Hs]%andb_true_iff.
  now rewrite (toLowerCase_unit_ascii _ Hc), (IH Hs).
Qed.

(** X10: the configured retainedHeaders are taken case-insensitively.  The
    middleware built from a list is the one built from the lowercased list;
    and the header named like an entry of the list, in whatever case either is
    written (ASCII letters), is among the retained ones. *)
Theorem retainedHeaders_case_insensitive (crypto : option generator)
  (weak : option bool) (gen : option generator) (l : list string) :
  etag crypto (mkOptions (Some (map toLowerCase l)) weak gen) =
  etag crypto (mkOptions (Some l) weak gen) /\
  forall h name,
    h ∈ l ->
    allChars (fun c => (N_of_ascii c <? 128)%N) h = true ->
    normalize name = normalize h ->
    includes (retainedHeaders (mkOptions (Some l) weak gen)) (normalize name) = true.
Proof.
  split.
  - unfold etag, retainedHeaders. cbn [options_retainedHeaders options_weak options_generateDigest].
    f_equal. rewrite map_map. apply map_ext. intros h. apply toLowerCase_idempotent.
  - intros h name Hin Hascii Hname. apply includes_true.
    unfold retainedHeaders. cbn [options_retainedHeaders].
    rewrite Hname, <- (toLowerCase_ascii _ Hascii).
    apply list_elem_of_In, in_map, list_elem_of_In, Hin.
Qed.

End MiddlewareFurther.

(** ** src/index.ts: the two copies, and the tag a client can check *)

Section Copies.

Lemma tidy_trimStart (s : string) : Earlier.tidy s = true -> Earlier.tidy (trimStart s) = true.
Proof.
  induction s as [|c s IH]; [easy|]. cbn [trimStart]. intros H.
  destruct (isWhiteSpace c); [|exact H].
  cbn [Earlier.tidy] in H. apply andb_true_iff in H as [_ H]. auto.
Qed.

Lemma re_comma_tidy (s : string) :
  Earlier.tidy s = true -> ETag.re_comma s = Earlier.re_comma s.
Proof.
  destruct s as [|c r]; [reflexivity|]. cbn [Earlier.tidy].
  intros [Hc _]%andb_true_iff. unfold ETag.re_comma. cbn [trimStart].
  destruct (isWhiteSpace c) eqn:Hws.
  - cbn [andb negb] in Hc.
    assert (Hearlier : Earlier.re_comma (String c r) = None).
    { destruct c as [[] [] [] [] [] [] [] []]; try reflexivity; discriminate. }
    rewrite Hearlier. destruct (trimStart r) as [|c' r']; [reflexivity|].
    destruct c' as [[] [] [] [] [] [] [] []]; try reflexivity; discriminate.
  - reflexivity.
Qed.

Lemma earlier_re_comma_tidy (s after : string) :
  Earlier.tidy s = true -> Earlier.re_comma s = Some after -> Earlier.tidy after = true.
Proof.
  destruct s as [|c r]; [discriminate|]. cbn [Earlier.tidy].
  intros [_ Hr]%andb_true_iff H.
  assert (after = trimStart r).
  { unfold Earlier.re_comma in H.
    destruct c as [[] [] [] [] [] [] [] []]; try discriminate. now injection H. }
  subst. now apply tidy_trimStart.
Qed.

Lemma split_scan_tidy (fuel : nat) (s : string) :
  Earlier.tidy s = true ->
  split_scan ETag.re_comma fuel s = split_scan Earlier.re_comma fuel s.
Proof.
  revert s. induction fuel as [|fuel IH]; intros s Hs; [now destruct s|].
  destruct s as [|c r]; [reflexivity|]. cbn [split_scan].
  rewrite (re_comma_tidy _ Hs).
  destruct (Earlier.re_comma (String c r)) as [after|] eqn:Hre.
  - f_equal. apply IH. eapply earlier_re_comma_tidy; eassumption.
  - rewrite IH; [reflexivity|].
    cbn [Earlier.tidy] in Hs. now apply andb_true_iff in Hs as [_ ?].
Qed.

(** X11: the two copies of [etagMatches] agree wherever their differences do
    not show: for every validator other than the single asterisk in which no
    white space stands before a comma, the first copy and the second, under
    any method, give the same answer; both answer false when the header is
    absent.  On the single asterisk the first copy compares it as a literal
    tag. *)
Theorem etagMatches_copies_agree (etag method : string) (v : string) :
  Earlier.tidy v = true -> v <> "*" ->
  Earlier.etagMatches etag (Some v) = ETag.etagMatches etag (Some v) method /\
  Earlier.etagMatches etag None = ETag.etagMatches etag None method /\
  (Earlier.etagMatches etag (Some "*") = true <-> stripWeak etag = "*").
Proof.
  intros Htidy Hstar. split; [|split].
  - unfold Earlier.etagMatches, ETag.etagMatches.
    destruct (String.eqb_spec v "*"); [congruence|].
    unfold split. now rewrite split_scan_tidy.
  - reflexivity.
  - unfold Earlier.etagMatches.
    change (split Earlier.re_comma "*") with ["*"]. cbn [some existsb].
    rewrite orb_false_r, String.eqb_eq. change (stripWeak "*") with "*".
    split; congruence.
Qed.

Lemma etagMatches_copies_agree_witness :
  let v := quoted "a" +:+ ", " +:+ "W/" +:+ quoted "b" in
  Earlier.tidy v = true /\ v <> "*" /\
  Earlier.etagMatches (quoted "b") (Some v) = ETag.etagMatches (quoted "b") (Some v) "GET".
Proof.
  intros v.
  assert (Hstar : v <> "*") by discriminate.
  split; [reflexivity|]. split; [exact Hstar|].
  exact (proj1 (etagMatches_copies_agree (quoted "b") "GET" v eq_refl Hstar)).
Defined.

(** X12: the tag can be checked against the body received.  When the
    middleware computes the tag and does not downgrade, the [ETag] header of
    the final response is the digest of the body of that same final response,
    as the configured generator gives it, in double quotes (behind [W/] when
    weak): what the helper [getHash] of the test-suite recomputes from the
    response. *)
Theorem etag_is_digest_of_final_body (crypto : option generator) (options : ETagOptions)
  (ctx : HoaContext) (next : HoaContext -> HoaContext) (g : generator) :
  carriesETag (res (next ctx)) = false ->
  initializeGenerator crypto (options_generateDigest options) = Some g ->
  exists run,
    outcome (etag crypto options ctx next) = Normal run /\
    (downgraded run = false ->
     match outcome (generateDigest (body (res (context run))) g) with
     | Normal (Some d) =>
         res_get (res (context run)) "ETag" =
         Some (if default false (options_weak options) then "W/" +:+ quoted d else quoted d)
     | Normal None => context run = next ctx
     | Throw _ => False
     end).
Proof.
  intros Hc Hg. set (weak := default false (options_weak options)).
  pose proof (resolveETag_fresh weak g (next ctx) Hc) as Hres.
  destruct (generateDigest_returns (response_body (next ctx)) g) as [digest Hdig].
  rewrite Hdig in Hres.
  unfold etag. rewrite Hg. fold weak.
  destruct digest as [d|].
  - rewrite (etagMiddleware_run _ _ _ _ _ (Some (if weak then "W/" +:+ quoted d else quoted d)))
      by now rewrite Hres.
    cbn [outcome]. eexists. split; [reflexivity|].
    intros Hd. rewrite finalize_passthrough by assumption. cbn [res body res_set].
    unfold response_body in Hdig. rewrite Hdig.
    unfold res_get. cbn [headers]. apply lookup_insert_eq.
  - rewrite (etagMiddleware_run _ _ _ _ _ None) by now rewrite Hres.
    cbn [outcome context]. eexists. split; [reflexivity|].
    intros _. cbn [context]. unfold response_body in Hdig. now rewrite Hdig.
Qed.

Lemma etag_is_digest_of_final_body_witness :
  let options := mkOptions None None None in
  let sha := fun _ : list byte => [xda; x39] in
  let ctx := mkContext (mkRequest "GET" ∅) (mkResponse 404 None ∅) in
  let handler := fun c => mkContext (req c) (mkResponse 200 (Some [[x78]]) ∅) in
  carriesETag (res (handler ctx)) = false /\
  initializeGenerator (Some sha) (options_generateDigest options) = Some sha /\
  exists run,
    outcome (etag (Some sha) options ctx handler) = Normal run /\
    res_get (res (context run)) "ETag" = Some (quoted "da39").
Proof.
  intros options sha ctx handler. split; [reflexivity|]. split; [reflexivity|].
  destruct (etag_is_digest_of_final_body (Some sha) options ctx handler sha eq_refl eq_refl)
    as (run & Hrun & Hcheck).
  exists run. split; [exact Hrun|].
  vm_compute in Hrun. injection Hrun as <-. exact (Hcheck eq_refl).
Defined.

End Copies.

(** ** Stream objects: what the digest drains *)

Section StreamObjects.

Lemma live_unread_setUnread (h : Live.handle) (chunks : stream) (w : Live.World) :
  Live.unread h (Live.setUnread h chunks w) = chunks.
Proof.
  destruct h as [|l]; cbn; [reflexivity|]. now rewrite lookup_insert_eq.
Qed.

Lemma live_setUnread_twice (h : Live.handle) (s1 s2 : stream) (w : Live.World) :
  Live.setUnread h s2 (Live.setUnread h s1 w) = Live.setUnread h s2 w.
Proof.
  destruct h as [|l]; cbn; [reflexivity|]. now rewrite insert_insert_eq.
Qed.

(** The loop on a stream object reads what the loop on its chunks reads, and
    leaves the object without a chunk. *)
Lemma live_readAll (chunks : stream) (fuel : nat) (h : Live.handle)
  (acc : option (list byte)) (w : Live.World) :
  Live.unread h w = chunks -> (length chunks < fuel)%nat ->
  Live.readAll fuel h acc w =
  Some (Normal match chunks with
               | [] => acc
               | _ => Some (default [] acc ++ concat chunks)
               end,
        match chunks with
        | [] => w
        | _ => Live.setUnread h [] w
        end).
Proof.
  revert fuel acc w. induction chunks as [|value rest IH]; intros fuel acc w Hw Hf.
  - destruct fuel as [|fuel]; [cbn [length] in Hf; lia|].
    cbn [Live.readAll]. unfold Live.read. now rewrite Hw.
  - destruct fuel as [|fuel]; [lia|].
    cbn [Live.readAll]. unfold Live.read. rewrite Hw.
    assert (Hm : mergeBuffers acc value = Normal (default [] acc ++ value)).
    { destruct acc as [acc|]; [apply mergeBuffers_append | reflexivity]. }
    rewrite Hm.
    rewrite (IH fuel _ _ (live_unread_setUnread h rest w))
      by (cbn [length] in Hf; lia).
    cbn [default]. rewrite (concat_cons value rest). destruct rest as [|value' rest].
    + now rewrite concat_nil, app_nil_r.
    + now rewrite live_setUnread_twice, app_assoc.
Qed.

(** [generateDigest] on a stream object: the result is the one on the chunks
    the object holds, and the object is left drained. *)
Lemma live_generateDigest (h : Live.handle) (g : generator) (w : Live.World) :
  Live.generateDigest (Some h) g w =
  Some (Digest.generateDigest (Some (Live.unread h w)) g,
        match Live.unread h w with
        | [] => w
        | _ => Live.setUnread h [] w
        end).
Proof.
  unfold Live.generateDigest.
  rewrite (live_readAll (Live.unread h w)) by (reflexivity || lia).
  cbn [mbind option_bind]. f_equal. f_equal.
  destruct (Live.unread h w) as [|value rest]; [reflexivity|].
  unfold Digest.generateDigest. rewrite readAll_cons. reflexivity.
Qed.

Lemma live_drained (h : Live.handle) (w : Live.World) :
  Live.unread h match Live.unread h w with
                | [] => w
                | _ => Live.setUnread h [] w
                end = [].
Proof.
  destruct (Live.unread h w) eqn:H; [exact H | apply live_unread_setUnread].
Qed.

(** The resolution over the world gives what the resolution over the context
    gives; the store gains the drained snapshot when a digest is computed, and
    is otherwise as it was. *)
Lemma live_resolveETag (weak : bool) (gen : option generator)
  (ctx : HoaContext) (streams : gmap nat stream) :
  Live.resolveETag weak gen (Live.mkWorld ctx streams) =
  Some (ETag.resolveETag weak gen ctx,
        Live.mkWorld ctx
          match carriesETag (res ctx), gen, body (res ctx) with
          | false, Some _, Some _ => <[fresh (dom streams) := []]> streams
          | _, _, _ => streams
          end).
Proof.
  unfold Live.resolveETag, ETag.resolveETag, carriesETag. cbn [Live.w_ctx].
  destruct (res_get (res ctx) "ETag") as [[|c s]|]; try reflexivity;
    (destruct gen as [g|]; [|reflexivity]);
    unfold Live.response_body, response_body; cbn [Live.w_ctx Live.w_streams];
    (destruct (body (res ctx)) as [chunks|]; [|reflexivity]);
    rewrite live_generateDigest; cbn [mbind option_bind Live.unread Live.w_streams];
    rewrite lookup_insert_eq; cbn [default];
    (destruct chunks as [|value rest];
     [reflexivity | cbn [Live.setUnread Live.w_ctx Live.w_streams];
                    now rewrite insert_insert_eq]).
Qed.

(** C5: the digest drains a snapshot, not the body.  Over stream objects the
    middleware decides and leaves the context as over values; the stream
    objects that existed are untouched; when a digest is computed, the object
    read to the end is a new one, made from the chunks of the body, and the
    body keeps them: for every request that is not downgraded the body left
    in the response is the one the downstream handler produced.  Handed the
    body itself, [generateDigest] would leave it without a chunk. *)
Theorem digest_drains_snapshot_only (crypto : option generator) (options : ETagOptions)
  (w : Live.World) (next : HoaContext -> HoaContext) :
  let ctx := next (Live.w_ctx w) in
  let generator := initializeGenerator crypto (options_generateDigest options) in
  exists eff w',
    Live.etag crypto options w next = Some (eff, w') /\
    (exists run,
       outcome (ETag.etag crypto options (Live.w_ctx w) next) = Normal run /\
       outcome eff = Normal (downgraded run) /\
       invoked eff = invoked (ETag.etag crypto options (Live.w_ctx w) next) /\
       Live.w_ctx w' = context run) /\
    (outcome eff = Normal false -> body (res (Live.w_ctx w')) = body (res ctx)) /\
    (forall l chunks,
       Live.w_streams w !! l = Some chunks -> Live.w_streams w' !! l = Some chunks) /\
    (forall g chunks,
       carriesETag (res ctx) = false -> generator = Some g ->
       body (res ctx) = Some chunks ->
       Live.w_streams w !! fresh (dom (Live.w_streams w)) = None /\
       Live.w_streams w' = <[fresh (dom (Live.w_streams w)) := []]> (Live.w_streams w) /\
       invoked eff = match chunks with
                     | [] => []
                     | _ => [concat chunks]
                     end) /\
    (forall g w0 chunks,
       body (res (Live.w_ctx w0)) = Some chunks ->
       exists eff0 w1,
         Live.generateDigest (Some Live.Body) g w0 = Some (eff0, w1) /\
         body (res (Live.w_ctx w1)) = Some []).
Proof.
  intros ctx generator. destruct w as [ctx0 streams]. cbn [Live.w_ctx Live.w_streams] in *.
  set (weak := default false (options_weak options)).
  destruct (resolveETag_returns weak generator ctx) as (tag & Htag & _).
  pose proof (etagMiddleware_run (retainedHeaders options) weak generator ctx0 next tag Htag)
    as Hrun.
  assert (Hfresh : streams !! fresh (dom streams) = None).
  { apply not_elem_of_dom, is_fresh. }
  unfold Live.etag, Live.etagMiddleware. fold weak generator.
  cbn [Live.w_ctx Live.w_streams]. fold ctx.
  rewrite live_resolveETag. cbn [mbind option_bind]. rewrite Htag.
  set (streams' := match carriesETag (res ctx), generator, body (res ctx) with
                   | false, Some _, Some _ => <[fresh (dom streams) := []]> streams
                   | _, _, _ => streams
                   end).
  assert (Hkeep : forall l chunks, streams !! l = Some chunks -> streams' !! l = Some chunks).
  { intros l chunks Hl. subst streams'.
    destruct (carriesETag (res ctx)), generator, (body (res ctx)); try exact Hl.
    rewrite lookup_insert_ne; [exact Hl | congruence]. }
  assert (Hnew : forall g chunks,
             carriesETag (res ctx) = false -> generator = Some g ->
             body (res ctx) = Some chunks ->
             streams' = <[fresh (dom streams) := []]> streams /\
             invoked (ETag.resolveETag weak generator ctx) =
               match chunks with
               | [] => []
               | _ => [concat chunks]
               end).
  { intros g chunks Hc Hg Hb. subst streams'. rewrite Hc, Hg, Hb. split; [reflexivity|].
    rewrite resolveETag_fresh by assumption. cbn [invoked]. unfold response_body.
    rewrite Hb. destruct chunks as [|value rest]; [reflexivity|].
    now rewrite generateDigest_cons. }
  assert (Hbody : forall g w0 chunks,
             body (res (Live.w_ctx w0)) = Some chunks ->
             exists eff0 w1,
               Live.generateDigest (Some Live.Body) g w0 = Some (eff0, w1) /\
               body (res (Live.w_ctx w1)) = Some []).
  { intros g w0 chunks Hb. rewrite live_generateDigest. eexists _, _.
    split; [reflexivity|]. cbn [Live.unread]. rewrite Hb. cbn [default].
    destruct chunks; [exact Hb | reflexivity]. }
  unfold ETag.etag. fold weak generator. rewrite Hrun. cbn [outcome invoked].
  destruct tag as [e|].
  - eexists _, _. split; [reflexivity|]. cbn [outcome invoked Live.w_ctx Live.w_streams].
    split; [eexists; repeat split|].
    split; [intros [= Hd]; now rewrite finalize_passthrough|].
    split; [exact Hkeep|]. split; [|exact Hbody].
    intros g chunks Hc Hg Hb. split; [exact Hfresh|]. now apply (Hnew g).
  - eexists _, _. split; [reflexivity|]. cbn [outcome invoked Live.w_ctx Live.w_streams].
    split; [eexists; repeat split|].
    split; [reflexivity|].
    split; [exact Hkeep|]. split; [|exact Hbody].
    intros g chunks Hc Hg Hb. split; [exact Hfresh|]. now apply (Hnew g).
Qed.

(** A run: the handler answers with a body of two chunks while two stream
    objects exist.  The digest is computed from both chunks, the body still
    holds them, the two objects are as they were, and a third one, the
    snapshot, is left drained. *)
Example scenario_snapshot_drained :
  let w := Live.mkWorld (Scenario.request "GET" None) {[ 0%nat := [[x01]]; 1%nat := [] ]} in
  let handler := fun c => mkContext (req c) (mkResponse 200 (Some [[x48]; [x69]]) ∅) in
  (fun r => (outcome r.1, invoked r.1, body (res (Live.w_ctx r.2)),
             map (fun l => Live.w_streams r.2 !! l) [0; 1; 2]%nat))
  <$> Live.etag None Scenario.plain w handler
  = Some (Normal false, [[x48; x69]], Some [[x48]; [x69]],
          [Some [[x01]]; Some []; Some []]).
Proof. reflexivity. Qed.

(** The contrast: [generateDigest] handed the body stream itself returns the
    same digest and leaves the body without a chunk. *)
Example scenario_body_itself_drained :
  let w := Live.mkWorld
             (mkContext (mkRequest "GET" ∅) (mkResponse 200 (Some [[x48]; [x69]]) ∅)) ∅ in
  (fun r => (outcome r.1, body (res (Live.w_ctx r.2))))
  <$> Live.generateDigest (Some Live.Body) (fun body => body) w
  = Some (Normal (Some "4869"), Some []).
Proof. reflexivity. Qed.

End StreamObjects.
